(** * dopplerr/db.py: the persistence layer of dopplerr

    A shallow embedding of [src/dopplerr/db.py] and the properties its
    specification states about it.

    The module talks to SQLite through peewee.  The embedding keeps the three
    tables as lists of rows in rowid order, threads them through a small
    state-and-exception monad, and gives each peewee call the module uses
    ([Model.get], [Model.create], [Model.save], [select().where()],
    [order_by], [limit]) the meaning of the SQL statement peewee emits for
    it.  Each function of [DopplerrDb] is then transcribed statement by
    statement.

    What the embedding takes from peewee and SQLite rather than from the
    module: a keyword or [==] comparison with [None] is [IS NULL]; a query
    used as a value is a scalar subquery selecting the primary key; a full
    scan and a scalar subquery visit rows in rowid order; [ORDER BY] keeps
    rows with equal keys in scan order; NULL sorts before every text; a
    negative [LIMIT] is no limit; texts compare bytewise; an integer bound
    to a statement must fit SQLite's signed 64-bit INTEGER ([OverflowError]
    otherwise), and so must a [LIMIT] ([IntegrityError], datatype mismatch,
    otherwise).  Calls run one at a time, as the write queue makes them, and
    rowids stay below 2^63. *)

From Stdlib Require Import List String Ascii ZArith Arith Bool Lia.
From Stdlib Require Import DecimalString Eqdep_dec.
From Stdlib Require Import Sorting.Sorted Sorting.Permutation.
Import ListNotations.

Local Open Scope string_scope.
Local Open Scope list_scope.

(* ------------------------------------------------------------------ *)
(** ** Python values used by the module *)

(** [datetime.datetime]: a naive (timezone-free) wall-clock reading. *)
Module datetime.

Record t := mk {
  year : nat;
  month : nat;
  day : nat;
  hour : nat;
  minute : nat;
  second : nat;
  microsecond : nat
}.

Definition fields (d : t) : list nat :=
  [year d; month d; day d; hour d; minute d; second d; microsecond d].

(** Chronological order.  SQLite stores a datetime as the text
    [YYYY-MM-DD HH:MM:SS.ffffff] and compares texts bytewise, which for
    zero-padded fields is the lexicographic order of the components. *)
Fixpoint lex_leb (a b : list nat) : bool :=
  match a, b with
  | [], _ => true
  | _ :: _, [] => false
  | x :: a', y :: b' =>
      if (x <? y)%nat then true
      else if (y <? x)%nat then false
      else lex_leb a' b'
  end.

Definition leb (a b : t) : bool := lex_leb (fields a) (fields b).
Definition ltb (a b : t) : bool := negb (leb b a).

Definition digit (n : nat) : ascii := ascii_of_nat (48 + n mod 10).

(** The [width] low decimal digits of [n], most significant first. *)
Fixpoint zero_padded (width n : nat) : string :=
  match width with
  | O => ""
  | S w => zero_padded w (n / 10) ++ String (digit n) ""
  end.

(** [n] in decimal, without padding. *)
Definition decimal (n : nat) : string :=
  NilZero.string_of_uint (Nat.to_uint n).

(** The C library prints [%Y] without padding: four digits from year 1000
    on, fewer before. *)
Definition directive (d : t) (c : ascii) : string :=
  if Ascii.eqb c "Y" then decimal (year d)
  else if Ascii.eqb c "m" then zero_padded 2 (month d)
  else if Ascii.eqb c "d" then zero_padded 2 (day d)
  else if Ascii.eqb c "H" then zero_padded 2 (hour d)
  else if Ascii.eqb c "M" then zero_padded 2 (minute d)
  else if Ascii.eqb c "S" then zero_padded 2 (second d)
  else if Ascii.eqb c "f" then zero_padded 6 (microsecond d)
  else if Ascii.eqb c "%" then "%"
  else String "%" (String c "").

(** [d.strftime(fmt)] for the directives above; any other character is
    copied. *)
Fixpoint strftime (d : t) (fmt : string) : string :=
  match fmt with
  | EmptyString => ""
  | String c rest =>
      if Ascii.eqb c "%" then
        match rest with
        | EmptyString => "%"
        | String c' rest' => directive d c' ++ strftime d rest'
        end
      else String c (strftime d rest)
  end.

End datetime.

(** Python exceptions the module can raise or catch. *)
Inductive exception :=
| AssertionError (msg : string)
| DoesNotExist
| IntegrityError
| OverflowError
| FileNotFoundError
| IsADirectoryError
| PermissionError.

(** Truthiness of a [str]-or-[None] value, as [assert] tests it. *)
Definition truthy (s : option string) : bool :=
  match s with
  | None => false
  | Some s' => negb (String.eqb s' "")
  end.

(* ------------------------------------------------------------------ *)
(** ** Schema: one record per peewee model *)

Module Events.
Record t := mk {
  id : Z;
  timestamp : datetime.t;
  type : string;
  message : string
}.
End Events.

Module SeriesMedias.
Record t := mk {
  id : Z;
  tv_db_id : option Z;
  season_number : option Z;
  episode_number : option Z;
  added_timestamp : datetime.t;
  series_title : option string;
  episode_title : option string;
  quality : option string;
  video_languages : option string;
  dirty : bool;
  media_filename : string
}.
End SeriesMedias.

Module SeriesSubtitles.
Record t := mk {
  id : Z;
  added_timestamp : datetime.t;
  series_media : Z;
  language : string
}.
End SeriesSubtitles.

(** The argument of [update_fetched_series_subtitles]. *)
Module SeriesEpisodeUid.
Record t := mk {
  tv_db_id : option Z;
  season_number : option Z;
  episode_number : option Z
}.
End SeriesEpisodeUid.

(** SQLite's INTEGER is a signed 64-bit value. *)
Definition int64_min : Z := (- 2 ^ 63)%Z.
Definition int64_max : Z := (2 ^ 63 - 1)%Z.

Definition in_int64 (z : Z) : bool :=
  (int64_min <=? z)%Z && (z <=? int64_max)%Z.

(** Whether a Python [int] or [None] can be bound to a statement: the
    driver refuses an integer outside the 64-bit range. *)
Definition bindable (v : option Z) : bool :=
  match v with
  | None => true
  | Some z => in_int64 z
  end.

(** Whether the integer columns of a media row are values a table can
    hold. *)
Definition storable_row (r : SeriesMedias.t) : bool :=
  bindable (SeriesMedias.tv_db_id r)
  && bindable (SeriesMedias.season_number r)
  && bindable (SeriesMedias.episode_number r).

Definition storable_rows (l : list SeriesMedias.t) : bool :=
  forallb storable_row l.

(** The database file's contents, tables in rowid order, and the number of
    rows instantiated so far ([ticks] indexes the wall-clock readings that
    fill the [default=datetime.datetime.now] columns, see [now] below).  A
    file holds only 64-bit integers: [seriesmedias_storable]. *)
Record state := mkState {
  events : list Events.t;
  seriesmedias : list SeriesMedias.t;
  seriessubtitles : list SeriesSubtitles.t;
  ticks : nat;
  seriesmedias_storable : storable_rows seriesmedias = true
}.

(** A fresh file after [create_tables]. *)
Definition empty_db : state := mkState [] [] [] 0 eq_refl.

(* ------------------------------------------------------------------ *)
(** ** The state-and-exception monad *)

Inductive result (A : Type) :=
| Return (a : A)
| Raise (e : exception).
Arguments Return {A} a.
Arguments Raise {A} e.

Definition DB (A : Type) : Type := state -> result A * state.

Definition ret {A} (a : A) : DB A := fun st => (Return a, st).
Definition raise {A} (e : exception) : DB A := fun st => (Raise e, st).

Definition bind {A B} (m : DB A) (k : A -> DB B) : DB B :=
  fun st =>
    match m st with
    | (Return a, st') => k a st'
    | (Raise e, st') => (Raise e, st')
    end.

Notation "x <- m ;; k" := (bind m (fun x => k))
  (at level 61, m at next level, right associativity).
Notation "m ;;; k" := (bind m (fun _ => k))
  (at level 61, right associativity).

Definition gets {A} (f : state -> A) : DB A := fun st => (Return (f st), st).

(** [for x in xs: body(x)] *)
Fixpoint for_each {A} (xs : list A) (body : A -> DB unit) : DB unit :=
  match xs with
  | [] => ret tt
  | x :: xs' => body x ;;; for_each xs' body
  end.

(** The database after running [m], whether it returned or raised. *)
Definition exec {A} (m : DB A) (st : state) : state := snd (m st).
Definition outcome {A} (m : DB A) (st : state) : result A := fst (m st).

(* ------------------------------------------------------------------ *)
(** ** SQL building blocks *)

(** peewee compiles [field == v] to [field IS NULL] when [v] is [None] and to
    [field = v] otherwise; the latter is never true of a NULL column. *)
Definition col_eq (column value : option Z) : bool :=
  match value, column with
  | None, None => true
  | None, Some _ => false
  | Some _, None => false
  | Some v, Some c => Z.eqb c v
  end.

(** SQLite orders NULL before every text. *)
Definition text_leb (a b : option string) : bool :=
  match a, b with
  | None, _ => true
  | Some _, None => false
  | Some x, Some y => String.leb x y
  end.

(** Stable insertion sort; [before x y] says [x] may precede [y]. *)
Section Sort.
Context {A : Type} (before : A -> A -> bool).

Fixpoint insert (x : A) (l : list A) : list A :=
  match l with
  | [] => [x]
  | y :: l' => if before x y then x :: l else y :: insert x l'
  end.

Fixpoint sort (l : list A) : list A :=
  match l with
  | [] => []
  | x :: l' => insert x (sort l')
  end.
End Sort.

(** [ORDER BY key DESC] *)
Definition order_by_desc {A K} (leb : K -> K -> bool) (key : A -> K)
    (rows : list A) : list A :=
  sort (fun x y => leb (key y) (key x)) rows.

(** The rows a limit keeps: a negative limit means no bound in SQLite. *)
Definition limited {A} (n : Z) (rows : list A) : list A :=
  if (n <? 0)%Z then rows else firstn (Z.to_nat n) rows.

(** [LIMIT n].  peewee writes the number into the statement; SQLite takes
    it when it is a 64-bit integer and refuses the statement otherwise
    (datatype mismatch). *)
Definition sql_limit {A} (n : Z) (rows : list A) : result (list A) :=
  if in_int64 n then Return (limited n rows) else Raise IntegrityError.

(** A SELECT: it reads the database and may be refused. *)
Definition select {A} (f : state -> result A) : DB A :=
  fun st => (f st, st).

(** [sorted(xs)] on a list of [str]. *)
Definition sorted (xs : list string) : list string := sort String.leb xs.

(** The rowid SQLite gives a new row of an [INTEGER PRIMARY KEY] table. *)
Definition next_id (ids : list Z) : Z := (1 + fold_right Z.max 0 ids)%Z.

(* ------------------------------------------------------------------ *)
(** ** peewee: the calls the module makes *)

(** The keyword arguments of [SeriesMedias.get] and [SeriesMedias.create]. *)
Module MediaKey.
Record t := mk {
  tv_db_id : option Z;
  season_number : option Z;
  episode_number : option Z;
  media_filename : string
}.
End MediaKey.

(** A WHERE clause, as a test on rows. *)
Definition Where : Type := SeriesMedias.t -> bool.

(** A [SeriesMedias.select().where(...)] that has not been executed: its
    WHERE clause and the integers it binds to it. *)
Record SelectQuery := mkSelect {
  where_clause : Where;
  parameters : list (option Z)
}.

(** Executing a statement binds its parameters. *)
Definition parameters_bindable (q : SelectQuery) : bool :=
  forallb bindable (parameters q).

(** The keyword arguments of [SeriesSubtitles.get] and
    [SeriesSubtitles.create] as the module passes them: [series_media] is
    the unexecuted query, not a row. *)
Module SubtitleKey.
Record t := mk {
  series_media : SelectQuery;
  language : string
}.
End SubtitleKey.

Definition with_events (st : state) (l : list Events.t) : state :=
  mkState l (seriesmedias st) (seriessubtitles st) (ticks st)
    (seriesmedias_storable st).
Definition with_seriessubtitles (st : state) (l : list SeriesSubtitles.t)
    : state :=
  mkState (events st) (seriesmedias st) l (ticks st)
    (seriesmedias_storable st).

(** One more reading taken off the clock. *)
Definition tick (st : state) : state :=
  mkState (events st) (seriesmedias st) (seriessubtitles st) (S (ticks st))
    (seriesmedias_storable st).

Definition with_seriesmedias (st : state) (l : list SeriesMedias.t)
    (storable : storable_rows l = true) : state :=
  mkState (events st) l (seriessubtitles st) (ticks st) storable.

(** Writing the media table: only 64-bit integers go in. *)
Definition write_seriesmedias (st : state) (l : list SeriesMedias.t)
    : option state :=
  match bool_dec (storable_rows l) true with
  | left storable => Some (with_seriesmedias st l storable)
  | right _ => None
  end.

Definition key_bindable (k : MediaKey.t) : bool :=
  bindable (MediaKey.tv_db_id k)
  && bindable (MediaKey.season_number k)
  && bindable (MediaKey.episode_number k).

(** [WHERE tv_db_id = ? AND season_number = ? AND episode_number = ? AND
    media_filename = ?] *)
Definition matches_key (k : MediaKey.t) (r : SeriesMedias.t) : bool :=
  col_eq (SeriesMedias.tv_db_id r) (MediaKey.tv_db_id k)
  && col_eq (SeriesMedias.season_number r) (MediaKey.season_number k)
  && col_eq (SeriesMedias.episode_number r) (MediaKey.episode_number k)
  && String.eqb (SeriesMedias.media_filename r) (MediaKey.media_filename k).

(** [WHERE tv_db_id = ? AND season_number = ? AND episode_number = ?]: the
    test alone.  A statement that carries it also binds the three values,
    see [select_where_uid] and [execute]. *)
Definition matches_uid (u : SeriesEpisodeUid.t) : Where :=
  fun r =>
    col_eq (SeriesMedias.tv_db_id r) (SeriesEpisodeUid.tv_db_id u)
    && col_eq (SeriesMedias.season_number r) (SeriesEpisodeUid.season_number u)
    && col_eq (SeriesMedias.episode_number r)
         (SeriesEpisodeUid.episode_number u).

(** [SeriesMedias.select().where(tv_db_id == ..., season_number == ...,
    episode_number == ...)] *)
Definition select_where_uid (u : SeriesEpisodeUid.t) : SelectQuery :=
  mkSelect (matches_uid u)
    [SeriesEpisodeUid.tv_db_id u; SeriesEpisodeUid.season_number u;
     SeriesEpisodeUid.episode_number u].

(** Iterating a query runs it: the matching rows in rowid order. *)
Definition execute (q : SelectQuery) : DB (list SeriesMedias.t) :=
  select (fun st =>
    if parameters_bindable q
    then Return (filter (where_clause q) (seriesmedias st))
    else Raise OverflowError).

(** A query used as a value compiles to the scalar subquery
    [(SELECT id FROM seriesmedias WHERE ...)]: the id of the first matching
    row, NULL when none matches. *)
Definition scalar_subquery (q : Where) (st : state) : option Z :=
  option_map SeriesMedias.id (find q (seriesmedias st)).

(** [WHERE language = ? AND series_media_id = (SELECT ...)]; a comparison
    with NULL is never true. *)
Definition matches_subtitle (sub : option Z) (lang : string)
    (s : SeriesSubtitles.t) : bool :=
  String.eqb (SeriesSubtitles.language s) lang
  && match sub with
     | Some i => Z.eqb (SeriesSubtitles.series_media s) i
     | None => false
     end.

(** The mappings the read operations return. *)
Module EventDict.
Record t := mk {
  timestamp : string;
  type : string;
  message : string
}.
End EventDict.

Module MediaDict.
Record t := mk {
  added_timestamp : string;
  series_title : option string;
  season_number : option Z;
  episode_number : option Z;
  episode_title : option string;
  quality : option string;
  video_languages : option string;
  subtitle_languages : list string;
  dirty : bool
}.
End MediaDict.

(** What [UPDATE ... WHERE id = m.id] does to one row. *)
Definition replace_by_id (m r : SeriesMedias.t) : SeriesMedias.t :=
  if Z.eqb (SeriesMedias.id r) (SeriesMedias.id m) then m else r.

(** The six attribute assignments of [update_series_media]. *)
Definition assign_fields (media : SeriesMedias.t)
    (series_title episode_title quality video_languages : option string)
    (dirty : bool) (media_filename : string) : SeriesMedias.t :=
  SeriesMedias.mk
    (SeriesMedias.id media)
    (SeriesMedias.tv_db_id media)
    (SeriesMedias.season_number media)
    (SeriesMedias.episode_number media)
    (SeriesMedias.added_timestamp media)
    series_title episode_title quality video_languages dirty media_filename.

(** [m.dirty = dirty] *)
Definition set_dirty (m : SeriesMedias.t) (dirty : bool) : SeriesMedias.t :=
  SeriesMedias.mk
    (SeriesMedias.id m) (SeriesMedias.tv_db_id m)
    (SeriesMedias.season_number m) (SeriesMedias.episode_number m)
    (SeriesMedias.added_timestamp m) (SeriesMedias.series_title m)
    (SeriesMedias.episode_title m) (SeriesMedias.quality m)
    (SeriesMedias.video_languages m) dirty (SeriesMedias.media_filename m).

(** [med.subtitles]: the back-reference of the foreign key. *)
Definition subtitles (med : SeriesMedias.t) (st : state)
    : list SeriesSubtitles.t :=
  filter (fun s => Z.eqb (SeriesSubtitles.series_media s)
                     (SeriesMedias.id med))
         (seriessubtitles st).

Definition iso_seconds : string := "%Y-%m-%dT%H:%M:%S".

(** The mapping [get_recent_events] builds for one event. *)
Definition event_dict (e : Events.t) : EventDict.t :=
  EventDict.mk
    (datetime.strftime (Events.timestamp e) iso_seconds)
    (Events.type e)
    (Events.message e).

(** The mapping [get_medias_series] builds for one media row. *)
Definition media_dict (st : state) (med : SeriesMedias.t) : MediaDict.t :=
  MediaDict.mk
    (datetime.strftime (SeriesMedias.added_timestamp med) iso_seconds)
    (SeriesMedias.series_title med)
    (SeriesMedias.season_number med)
    (SeriesMedias.episode_number med)
    (SeriesMedias.episode_title med)
    (SeriesMedias.quality med)
    (SeriesMedias.video_languages med)
    (sorted (map SeriesSubtitles.language (subtitles med st)))
    (SeriesMedias.dirty med).

Section Peewee.

(** [now n] is what [datetime.datetime.now()] returns for the [n]-th row
    the process instantiates. *)
Variable now : nat -> datetime.t.

Definition datetime_now : DB datetime.t :=
  fun st => (Return (now (ticks st)), tick st).

(** What [_get_or_create] needs of a model class. *)
Class Model (Row Kwargs : Type) := {
  get : Kwargs -> DB Row;
  create : Kwargs -> DB Row
}.

(** [Events.create(type=..., message=...)] *)
Definition Events_create (thetype message : string) : DB Events.t :=
  ts <- datetime_now ;;
  fun st =>
    let e := Events.mk (next_id (map Events.id (events st))) ts thetype
               message in
    (Return e, with_events st (events st ++ [e])).

(** [SeriesMedias.get(k=v, ...)]: the first matching row.  The key's
    integers are bound to the SELECT. *)
Definition SeriesMedias_get (k : MediaKey.t) : DB SeriesMedias.t :=
  fun st =>
    if key_bindable k then
      match find (matches_key k) (seriesmedias st) with
      | Some r => (Return r, st)
      | None => (Raise DoesNotExist, st)
      end
    else (Raise OverflowError, st).

(** [SeriesMedias.create(k=v, ...)]: the other columns take their
    defaults.  The key's integers are bound to the INSERT. *)
Definition SeriesMedias_create (k : MediaKey.t) : DB SeriesMedias.t :=
  ts <- datetime_now ;;
  fun st =>
    let r := SeriesMedias.mk
               (next_id (map SeriesMedias.id (seriesmedias st)))
               (MediaKey.tv_db_id k) (MediaKey.season_number k)
               (MediaKey.episode_number k) ts None None None None true
               (MediaKey.media_filename k) in
    match write_seriesmedias st (seriesmedias st ++ [r]) with
    | Some st' => (Return r, st')
    | None => (Raise OverflowError, st)
    end.

(** [m.save()] on a row that has an id:
    [UPDATE seriesmedias SET <every column> WHERE id = m.id].  The row's
    integers are bound to the UPDATE. *)
Definition SeriesMedias_save (m : SeriesMedias.t) : DB unit :=
  fun st =>
    if storable_row m then
      match write_seriesmedias st (map (replace_by_id m) (seriesmedias st))
      with
      | Some st' => (Return tt, st')
      | None => (Raise OverflowError, st)
      end
    else (Raise OverflowError, st).

(** [SeriesSubtitles.get(series_media=<query>, language=lang)]: the
    query's integers are bound to the SELECT. *)
Definition SeriesSubtitles_get (k : SubtitleKey.t) : DB SeriesSubtitles.t :=
  fun st =>
    if parameters_bindable (SubtitleKey.series_media k) then
      match find (matches_subtitle
                    (scalar_subquery
                       (where_clause (SubtitleKey.series_media k)) st)
                    (SubtitleKey.language k))
                 (seriessubtitles st) with
      | Some s => (Return s, st)
      | None => (Raise DoesNotExist, st)
      end
    else (Raise OverflowError, st).

(** [SeriesSubtitles.create(series_media=<query>, language=lang)]:
    [INSERT ... VALUES (?, (SELECT id ...), ?)].  The query's integers are
    bound to the INSERT.  The column [series_media_id] is NOT NULL, so the
    insert is refused when the subquery yields no row. *)
Definition SeriesSubtitles_create (k : SubtitleKey.t)
    : DB SeriesSubtitles.t :=
  ts <- datetime_now ;;
  fun st =>
    if parameters_bindable (SubtitleKey.series_media k) then
      match scalar_subquery (where_clause (SubtitleKey.series_media k)) st
      with
      | None => (Raise IntegrityError, st)
      | Some i =>
          let s := SeriesSubtitles.mk
                     (next_id (map SeriesSubtitles.id (seriessubtitles st)))
                     ts i (SubtitleKey.language k) in
          (Return s, with_seriessubtitles st (seriessubtitles st ++ [s]))
      end
    else (Raise OverflowError, st).

#[local] Instance SeriesMedias_Model : Model SeriesMedias.t MediaKey.t :=
  {| get := SeriesMedias_get; create := SeriesMedias_create |}.

#[local] Instance SeriesSubtitles_Model
    : Model SeriesSubtitles.t SubtitleKey.t :=
  {| get := SeriesSubtitles_get; create := SeriesSubtitles_create |}.

(* ---------------------------------------------------------------- *)
(** ** class DopplerrDb *)

Definition assert_ (cond : bool) (msg : string) : DB unit :=
  if cond then ret tt else raise (AssertionError msg).

(** [try: return model.get(k=v, ...), False
     except DoesNotExist: return model.create(k=v, ...), True] *)
Definition _get_or_create {Row Kwargs} `{Model Row Kwargs}
    (kwargs : Kwargs) : DB (Row * bool) :=
  fun st =>
    match get kwargs st with
    | (Return it, st') => (Return (it, false), st')
    | (Raise DoesNotExist, st') =>
        (it <- create kwargs ;; ret (it, true)) st'
    | (Raise e, st') => (Raise e, st')
    end.

Definition insert_event (thetype message : string) : DB unit :=
  Events_create thetype message ;;; ret tt.

Definition get_recent_events (limit : Z) : DB (list EventDict.t) :=
  events <- select (fun st =>
              sql_limit limit
                (order_by_desc datetime.leb Events.timestamp (events st))) ;;
  ret (map event_dict events).

Definition update_series_media
    (series_title : option string)
    (tv_db_id season_number episode_number : option Z)
    (episode_title quality video_languages : option string)
    (media_filename : option string)
    (dirty : bool) : DB unit :=
  assert_ (truthy media_filename) "media_filename cannot be None" ;;;
  (* past the assertion media_filename is a non-empty str *)
  let media_filename :=
    match media_filename with Some f => f | None => "" end in
  found <- _get_or_create
             (MediaKey.mk tv_db_id season_number episode_number
                media_filename) ;;
  let media := fst found in
  SeriesMedias_save
    (assign_fields media series_title episode_title quality video_languages
       dirty media_filename).

Definition update_fetched_series_subtitles
    (series_episode_uid : SeriesEpisodeUid.t)
    (subtitles_languages : list string)
    (dirty : bool) : DB unit :=
  let media := select_where_uid series_episode_uid in
  for_each subtitles_languages (fun lang =>
    _get_or_create (SubtitleKey.mk media lang) ;;; ret tt) ;;;
  rows <- execute media ;;
  for_each rows (fun m => SeriesMedias_save (set_dirty m dirty)).

Definition get_medias_series : DB (list MediaDict.t) :=
  let limit := 100%Z in
  medias <- select (fun st =>
              sql_limit limit
                (order_by_desc text_leb SeriesMedias.series_title
                   (seriesmedias st))) ;;
  gets (fun st => map (media_dict st) medias).

(** [bool(medias)] is [len(medias) != 0] for a query result. *)
Definition media_exists (media_filename : string) : DB bool :=
  medias <- gets (fun st =>
              filter (fun r => String.eqb (SeriesMedias.media_filename r)
                                 media_filename)
                     (seriesmedias st)) ;;
  ret (negb (Nat.eqb (List.length medias) 0)).

End Peewee.

(* ------------------------------------------------------------------ *)
(** ** Initialisation: the object's fields and the file system *)

Module Lifecycle.

Inductive kind := RegularFile | Directory.

(** A directory entry; [removable] says whether the process may remove
    it (write permission on the parent directory). *)
Record entry := mkEntry {
  entry_kind : kind;
  removable : bool
}.

Definition filesystem := list (string * entry).

Fixpoint lookup (path : string) (fs : filesystem) : option entry :=
  match fs with
  | [] => None
  | (p, e) :: fs' => if String.eqb p path then Some e else lookup path fs'
  end.

Definition remove (path : string) (fs : filesystem) : filesystem :=
  filter (fun pe => negb (String.eqb (fst pe) path)) fs.

(** [Path.unlink()], without [missing_ok]. *)
Definition unlink (path : string) (fs : filesystem)
    : result unit * filesystem :=
  match lookup path fs with
  | None => (Raise FileNotFoundError, fs)
  | Some e =>
      if negb (removable e) then (Raise PermissionError, fs)
      else match entry_kind e with
           | Directory => (Raise IsADirectoryError, fs)
           | RegularFile => (Return tt, remove path fs)
           end
  end.

(** An open handle on a database file. *)
Record SqliteQueueDatabase := mkHandle {
  handle_path : option string
}.

(** The private fields of the [DopplerrDb] singleton. *)
Record DopplerrDb := mkDopplerrDb {
  sqlite_db_path : option string;
  conn : option unit;
  database_field : option SqliteQueueDatabase
}.

(** [__init__] *)
Definition new : DopplerrDb := mkDopplerrDb None None None.

Record process := mkProcess {
  self : DopplerrDb;
  fs : filesystem
}.

Definition init (sqlite_db_path : string) (reset_db : bool) (p : process)
    : result unit * process :=
  let self' := mkDopplerrDb (Some sqlite_db_path) (conn (self p))
                 (database_field (self p)) in
  if reset_db then
    match unlink sqlite_db_path (fs p) with
    | (Return _, fs') => (Return tt, mkProcess self' fs')
    | (Raise e, fs') => (Raise e, mkProcess self' fs')
    end
  else (Return tt, mkProcess self' (fs p)).

(** The [database] property: the handle is made on first access and kept.
    Opening a path that has no file creates one. *)
Definition database (p : process) : SqliteQueueDatabase * process :=
  match database_field (self p) with
  | Some h => (h, p)
  | None =>
      let h := mkHandle (sqlite_db_path (self p)) in
      let fs' :=
        match sqlite_db_path (self p) with
        | Some path =>
            match lookup path (fs p) with
            | Some _ => fs p
            | None => (path, mkEntry RegularFile true) :: fs p
            end
        | None => fs p
        end in
      (h, mkProcess (mkDopplerrDb (sqlite_db_path (self p)) (conn (self p))
                       (Some h)) fs')
  end.

End Lifecycle.

(* ------------------------------------------------------------------ *)
(** ** Histories of calls *)

(** The mutating operations of the module. *)
Inductive call :=
| Call_insert_event (thetype message : string)
| Call_update_series_media
    (series_title : option string)
    (tv_db_id season_number episode_number : option Z)
    (episode_title quality video_languages : option string)
    (media_filename : option string)
    (dirty : bool)
| Call_update_fetched_series_subtitles
    (series_episode_uid : SeriesEpisodeUid.t)
    (subtitles_languages : list string)
    (dirty : bool).

(** The [media_filename] a call hands to [update_series_media], if any. *)
Definition call_filename (c : call) : option string :=
  match c with
  | Call_update_series_media _ _ _ _ _ _ _ f _ => f
  | _ => None
  end.

Definition perform (now : nat -> datetime.t) (c : call) (st : state) : state :=
  match c with
  | Call_insert_event t m => exec (insert_event now t m) st
  | Call_update_series_media a b c d e f g h i =>
      exec (update_series_media now a b c d e f g h i) st
  | Call_update_fetched_series_subtitles u l d =>
      exec (update_fetched_series_subtitles now u l d) st
  end.

(** The database after the calls of [h], oldest first, on a fresh file. *)
Definition replay (now : nat -> datetime.t) (h : list call) : state :=
  fold_left (fun st c => perform now c st) h empty_db.

(* ------------------------------------------------------------------ *)
(** ** Invariants of the tables *)

(** SQLite keeps the primary key of [seriesmedias] unique. *)
Definition pk_unique (st : state) : Prop :=
  NoDup (map SeriesMedias.id (seriesmedias st)).

Definition count_key (k : MediaKey.t) (st : state) : nat :=
  List.length (filter (matches_key k) (seriesmedias st)).

(** At most one media row per identity key. *)
Definition keys_unique (st : state) : Prop :=
  forall k, count_key k st <= 1.

Definition subtitle_pair (s : SeriesSubtitles.t) : Z * string :=
  (SeriesSubtitles.series_media s, SeriesSubtitles.language s).

(** At most one subtitle row per (series_media, language). *)
Definition pairs_unique (st : state) : Prop :=
  NoDup (map subtitle_pair (seriessubtitles st)).

Definition has_subtitle (st : state) (media : Z) (lang : string) : Prop :=
  In (media, lang) (map subtitle_pair (seriessubtitles st)).

Definition filenames_nonempty (st : state) : Prop :=
  Forall (fun r => SeriesMedias.media_filename r <> "") (seriesmedias st).

Record well_formed (st : state) : Prop := {
  wf_pk : pk_unique st;
  wf_keys : keys_unique st;
  wf_pairs : pairs_unique st;
  wf_filenames : filenames_nonempty st
}.

(** The identity key of a media row. *)
Definition key_of (r : SeriesMedias.t) : MediaKey.t :=
  MediaKey.mk (SeriesMedias.tv_db_id r) (SeriesMedias.season_number r)
    (SeriesMedias.episode_number r) (SeriesMedias.media_filename r).

(** The row [SeriesMedias.create] inserts. *)
Definition created_media (now : nat -> datetime.t) (st : state)
    (k : MediaKey.t) : SeriesMedias.t :=
  SeriesMedias.mk
    (next_id (map SeriesMedias.id (seriesmedias st)))
    (MediaKey.tv_db_id k) (MediaKey.season_number k)
    (MediaKey.episode_number k) (now (ticks st)) None None None None true
    (MediaKey.media_filename k).

(** What the last loop of [update_fetched_series_subtitles] does to a row of
    a table with unique ids. *)
Definition mark (u : SeriesEpisodeUid.t) (dirty : bool) (r : SeriesMedias.t)
    : SeriesMedias.t :=
  if matches_uid u r then set_dirty r dirty else r.

(** The table after the saves of the last loop, one UPDATE per row of
    [rows]. *)
Definition saves (dirty : bool) (rows table : list SeriesMedias.t)
    : list SeriesMedias.t :=
  fold_left (fun l m => map (replace_by_id (set_dirty m dirty)) l) rows table.

(** Whether the integers of an episode uid can be bound. *)
Definition uid_bindable (u : SeriesEpisodeUid.t) : bool :=
  parameters_bindable (select_where_uid u).

(** One turn of the first loop of [update_fetched_series_subtitles]. *)
Definition fetch_language (now : nat -> datetime.t) (media : SelectQuery)
    (lang : string) : DB unit :=
  @_get_or_create _ _ (SeriesSubtitles_Model now) (SubtitleKey.mk media lang)
  ;;; ret tt.

(* ------------------------------------------------------------------ *)
(** ** [get_last_fetched_series] *)

(** The mapping [get_last_fetched_series] returns for a subtitle row. *)
Module FetchedDict.
Record t := mk {
  added_timestamp : string;
  series_title : option string;
  season_number : option Z;
  episode_number : option Z;
  episode_title : option string;
  quality : option string;
  video_languages : option string;
  subtitle_language : string
}.
End FetchedDict.

(** [WHERE id = ?] *)
Definition has_id (i : Z) (r : SeriesMedias.t) : bool :=
  Z.eqb (SeriesMedias.id r) i.

(** [e.series_media]: the first read of a foreign-key attribute fetches the
    referenced row with [SeriesMedias.get(id == e.series_media_id)]; the
    row is then kept on [e] for the later reads. *)
Definition series_media_of (e : SeriesSubtitles.t) : DB SeriesMedias.t :=
  fun st =>
    match find (has_id (SeriesSubtitles.series_media e)) (seriesmedias st) with
    | Some r => (Return r, st)
    | None => (Raise DoesNotExist, st)
    end.

(** [[body(x) for x in xs]] *)
Fixpoint comprehension {A B} (xs : list A) (body : A -> DB B) : DB (list B) :=
  match xs with
  | [] => ret []
  | x :: xs' =>
      y <- body x ;;
      ys <- comprehension xs' body ;;
      ret (y :: ys)
  end.

Definition fetched_dict (e : SeriesSubtitles.t) (series_media : SeriesMedias.t)
    : FetchedDict.t :=
  FetchedDict.mk
    (datetime.strftime (SeriesSubtitles.added_timestamp e) iso_seconds)
    (SeriesMedias.series_title series_media)
    (SeriesMedias.season_number series_media)
    (SeriesMedias.episode_number series_media)
    (SeriesMedias.episode_title series_media)
    (SeriesMedias.quality series_media)
    (SeriesMedias.video_languages series_media)
    (SeriesSubtitles.language e).

(** The subtitle rows, most recently added first. *)
Definition newest_subtitles (st : state) : list SeriesSubtitles.t :=
  order_by_desc datetime.leb SeriesSubtitles.added_timestamp
    (seriessubtitles st).

(** The subtitle rows [get_last_fetched_series] reads, in its order. *)
Definition last_fetched (limit : Z) (st : state) : list SeriesSubtitles.t :=
  limited limit (newest_subtitles st).

Definition get_last_fetched_series (limit : Z) : DB (list FetchedDict.t) :=
  events <- select (fun st => sql_limit limit (newest_subtitles st)) ;;
  comprehension events (fun e =>
    series_media <- series_media_of e ;;
    ret (fetched_dict e series_media)).

(** The media row a subtitle row references, if it is stored. *)
Definition parent_of (st : state) (e : SeriesSubtitles.t)
    : option SeriesMedias.t :=
  find (has_id (SeriesSubtitles.series_media e)) (seriesmedias st).

(** The mapping built for a subtitle row whose media row is stored. *)
Definition fetched_row (st : state) (e : SeriesSubtitles.t)
    : option FetchedDict.t :=
  option_map (fetched_dict e) (parent_of st e).

(** Every subtitle row references a stored media row. *)
Definition references_valid (st : state) : Prop :=
  forall media lang,
    has_subtitle st media lang ->
    In media (map SeriesMedias.id (seriesmedias st)).

(** The (type, message) pairs a history hands to [insert_event], in call
    order. *)
Fixpoint logged (h : list call) : list (string * string) :=
  match h with
  | [] => []
  | Call_insert_event t m :: h' => (t, m) :: logged h'
  | _ :: h' => logged h'
  end.

Definition event_payload (e : Events.t) : string * string :=
  (Events.type e, Events.message e).

Definition dict_payload (d : EventDict.t) : string * string :=
  (EventDict.type d, EventDict.message d).

Definition run (now : nat -> datetime.t) (h : list call) (st : state)
    : state :=
  fold_left (fun st c => perform now c st) h st.

Definition newest_subtitle_first (a b : SeriesSubtitles.t) : Prop :=
  datetime.leb (SeriesSubtitles.added_timestamp b)
    (SeriesSubtitles.added_timestamp a) = true.

(* ------------------------------------------------------------------ *)
(** ** Orders on the results *)

Definition title_desc (a b : MediaDict.t) : Prop :=
  text_leb (MediaDict.series_title b) (MediaDict.series_title a) = true.

(** The order of [ORDER BY series_title DESC] on stored rows. *)
Definition stored_title_desc (a b : SeriesMedias.t) : Prop :=
  text_leb (SeriesMedias.series_title b) (SeriesMedias.series_title a) = true.

Definition lexicographic (a b : string) : Prop := String.leb a b = true.

Definition recent_first (a b : Events.t) : Prop :=
  datetime.leb (Events.timestamp b) (Events.timestamp a) = true.

(** The event row [insert_event] writes. *)
Definition inserted_event (now : nat -> datetime.t) (st : state)
    (thetype message : string) : Events.t :=
  Events.mk (next_id (map Events.id (events st))) (now (ticks st)) thetype
    message.

(* ------------------------------------------------------------------ *)
(** ** Sample data *)

(** A wall clock across the end of daylight saving time: the first reading
    is 02:30, the later ones 02:10 after the clock was set back an hour. *)
Definition autumn_clock (n : nat) : datetime.t :=
  match n with
  | O => datetime.mk 2017 10 29 2 30 0 0
  | S _ => datetime.mk 2017 10 29 2 10 0 0
  end.

(** A clock too coarse to tell two successive readings apart. *)
Definition coarse_clock (n : nat) : datetime.t :=
  datetime.mk 2017 10 29 2 30 0 0.

(** A clock that advances by one second per reading. *)
Definition steady_clock (n : nat) : datetime.t :=
  datetime.mk 2017 11 5 9 3 n 4200.

(** Two events logged one after the other on a fresh database. *)
Definition two_events (now : nat -> datetime.t) : state :=
  exec (insert_event now "download" "b")
    (exec (insert_event now "grab" "a") empty_db).

(** A file system holding a removable database file. *)
Definition fs_with_db : Lifecycle.filesystem :=
  [("/etc/passwd", Lifecycle.mkEntry Lifecycle.RegularFile false);
   ("/var/lib/dopplerr/sqlite.db",
    Lifecycle.mkEntry Lifecycle.RegularFile true)].

(** One episode file recorded on a fresh database. *)
Definition one_media (now : nat -> datetime.t) : state :=
  exec (update_series_media now (Some "Doctor Who") (Some 100%Z) (Some 1%Z)
          (Some 2%Z) (Some "The End of the World") (Some "720p") (Some "en")
          (Some "ep2.mkv") true)
    empty_db.

(** The row [one_media] holds. *)
Definition ep2_row (now : nat -> datetime.t) : SeriesMedias.t :=
  SeriesMedias.mk 1 (Some 100%Z) (Some 1%Z) (Some 2%Z) (now 0)
    (Some "Doctor Who") (Some "The End of the World") (Some "720p")
    (Some "en") true "ep2.mkv".

(** [one_media] with a second file of the same episode. *)
Definition two_files (now : nat -> datetime.t) : state :=
  exec (update_series_media now (Some "Doctor Who") (Some 100%Z) (Some 1%Z)
          (Some 2%Z) None (Some "1080p") None (Some "ep2.1080p.mkv") true)
    (one_media now).

Definition episode_1x02 : SeriesEpisodeUid.t :=
  SeriesEpisodeUid.mk (Some 100%Z) (Some 1%Z) (Some 2%Z).

(** A history that never names [movie.mkv]. *)
Definition sample_history : list call :=
  [Call_insert_event "grab" "a";
   Call_update_series_media (Some "Doctor Who") (Some 100%Z) (Some 1%Z)
     (Some 2%Z) None (Some "720p") None (Some "ep2.mkv") true;
   Call_update_fetched_series_subtitles episode_1x02 ["en"; "fr"] false;
   Call_update_series_media None None None None None None None (Some "") true].

(* ------------------------------------------------------------------ *)
(** ** Orders and sorting *)

Lemma lex_leb_total (a b : list nat) :
  datetime.lex_leb a b = true \/ datetime.lex_leb b a = true.
Proof.
  revert b; induction a as [|x a IH]; intros [|y b]; simpl; auto.
  destruct (Nat.ltb_spec x y), (Nat.ltb_spec y x); auto; lia.
Qed.

Lemma lex_leb_trans (a b c : list nat) :
  datetime.lex_leb a b = true -> datetime.lex_leb b c = true ->
  datetime.lex_leb a c = true.
Proof.
  revert b c; induction a as [|x a IH]; intros [|y b] [|z c]; simpl;
    try congruence.
  destruct (Nat.ltb_spec x y), (Nat.ltb_spec y x), (Nat.ltb_spec y z),
    (Nat.ltb_spec z y), (Nat.ltb_spec x z), (Nat.ltb_spec z x);
    try congruence; try lia; eauto.
Qed.

Lemma datetime_leb_total (a b : datetime.t) :
  datetime.leb a b = true \/ datetime.leb b a = true.
Proof. apply lex_leb_total. Qed.

Lemma datetime_leb_trans (a b c : datetime.t) :
  datetime.leb a b = true -> datetime.leb b c = true ->
  datetime.leb a c = true.
Proof. apply lex_leb_trans. Qed.

Lemma text_leb_total (a b : option string) :
  text_leb a b = true \/ text_leb b a = true.
Proof.
  destruct a as [x|], b as [y|]; simpl; auto using String.leb_total.
Qed.

Section SortFacts.
Context {A : Type} (before : A -> A -> bool).
Hypothesis before_total : forall x y, before x y = true \/ before y x = true.

Let R (x y : A) : Prop := before x y = true.

Lemma insert_perm (x : A) (l : list A) :
  Permutation (x :: l) (insert before x l).
Proof.
  induction l as [|y l IH]; simpl; auto.
  destruct (before x y); auto.
  rewrite perm_swap. auto.
Qed.

Lemma sort_perm (l : list A) : Permutation l (sort before l).
Proof.
  induction l as [|x l IH]; simpl; auto.
  rewrite <- insert_perm. auto.
Qed.

Lemma insert_sorted (x : A) (l : list A) :
  Sorted R l -> Sorted R (insert before x l).
Proof.
  induction 1 as [|y l Hs IH Hhd]; simpl.
  - repeat constructor.
  - destruct (before x y) eqn:E.
    + constructor; [constructor; assumption | constructor; exact E].
    + constructor; [exact IH|].
      assert (Hyx : R y x) by (destruct (before_total x y); congruence).
      destruct l as [|z l]; simpl.
      * constructor; exact Hyx.
      * destruct (before x z); constructor; auto.
        inversion Hhd; assumption.
Qed.

Lemma sort_sorted (l : list A) : Sorted R (sort before l).
Proof.
  induction l as [|x l IH]; simpl; [constructor | apply insert_sorted, IH].
Qed.
End SortFacts.

Lemma Sorted_firstn {A} (R : A -> A -> Prop) (n : nat) (l : list A) :
  Sorted R l -> Sorted R (firstn n l).
Proof.
  intros H; revert n; induction H as [|x l Hs IH Hhd]; intros [|n]; simpl;
    try constructor; auto.
  destruct Hhd; destruct n; simpl; constructor; auto.
Qed.

Lemma Sorted_map {A B} (R : A -> A -> Prop) (S : B -> B -> Prop) (f : A -> B)
    (l : list A) :
  (forall x y, R x y -> S (f x) (f y)) ->
  Sorted R l -> Sorted S (map f l).
Proof.
  intros Hf; induction 1 as [|x l Hs IH Hhd]; simpl; constructor; auto.
  destruct Hhd; simpl; constructor; auto.
Qed.

Lemma limited_sorted {A} (R : A -> A -> Prop) (n : Z) (l : list A) :
  Sorted R l -> Sorted R (limited n l).
Proof.
  intros H; unfold limited; destruct (n <? 0)%Z; auto using Sorted_firstn.
Qed.

Lemma limited_length {A} (n : Z) (l : list A) :
  (0 <= n)%Z -> List.length (limited n l) = Nat.min (Z.to_nat n) (List.length l).
Proof.
  intros H; unfold limited.
  destruct (Z.ltb_spec n 0); [lia|]. apply length_firstn.
Qed.

Lemma limited_nonnegative {A} (n : Z) (l : list A) :
  (0 <= n)%Z -> limited n l = firstn (Z.to_nat n) l.
Proof.
  intros H; unfold limited. destruct (Z.ltb_spec n 0); [lia | reflexivity].
Qed.

Lemma in_int64_iff (z : Z) :
  in_int64 z = true <-> (int64_min <= z <= int64_max)%Z.
Proof.
  unfold in_int64. rewrite andb_true_iff, !Z.leb_le. tauto.
Qed.

Lemma sql_limit_in_range {A} (n : Z) (l : list A) :
  (int64_min <= n <= int64_max)%Z -> sql_limit n l = Return (limited n l).
Proof.
  intros H. apply in_int64_iff in H. unfold sql_limit. rewrite H.
  reflexivity.
Qed.

Lemma sql_limit_out_of_range {A} (n : Z) (l : list A) :
  (int64_max < n)%Z -> sql_limit n l = Raise IntegrityError.
Proof.
  intros H. unfold sql_limit.
  destruct (in_int64 n) eqn:E; [|reflexivity].
  apply in_int64_iff in E. lia.
Qed.

(* ------------------------------------------------------------------ *)
(** ** Read operations *)

Lemma get_medias_series_run (st : state) :
  get_medias_series st =
  (Return (map (media_dict st)
             (firstn 100
                (order_by_desc text_leb SeriesMedias.series_title
                   (seriesmedias st)))), st).
Proof. reflexivity. Qed.

Lemma stored_title_order (l : list SeriesMedias.t) :
  Sorted stored_title_desc
    (order_by_desc text_leb SeriesMedias.series_title l).
Proof.
  unfold order_by_desc.
  apply (sort_sorted
           (fun x y => text_leb (SeriesMedias.series_title y)
                         (SeriesMedias.series_title x))).
  intros x y; apply text_leb_total.
Qed.

(** C5: whatever the database holds, [get_medias_series] leaves it as it
    was and returns the mappings of the first 100 media rows of the table
    ordered by [series_title] descending (NULL titles last): at most 100
    mappings, in that order, each carrying the fields of its media row, the
    dirty flag, the formatted [added_timestamp], and as
    [subtitle_languages] the languages of the subtitle rows that reference
    the media row, sorted lexicographically. *)
Theorem get_medias_series_capped_ordered (st : state) :
  exists ordered rows,
    Permutation (seriesmedias st) ordered
    /\ Sorted stored_title_desc ordered
    /\ rows = map (media_dict st) (firstn 100 ordered)
    /\ get_medias_series st = (Return rows, st)
    /\ List.length rows <= 100
    /\ List.length rows = Nat.min 100 (List.length (seriesmedias st))
    /\ Sorted title_desc rows
    /\ Forall (fun row => Sorted lexicographic (MediaDict.subtitle_languages row))
         rows
    /\ (forall med,
          MediaDict.series_title (media_dict st med) =
            SeriesMedias.series_title med
          /\ MediaDict.season_number (media_dict st med) =
             SeriesMedias.season_number med
          /\ MediaDict.episode_number (media_dict st med) =
             SeriesMedias.episode_number med
          /\ MediaDict.episode_title (media_dict st med) =
             SeriesMedias.episode_title med
          /\ MediaDict.quality (media_dict st med) = SeriesMedias.quality med
          /\ MediaDict.video_languages (media_dict st med) =
             SeriesMedias.video_languages med
          /\ MediaDict.dirty (media_dict st med) = SeriesMedias.dirty med
          /\ MediaDict.added_timestamp (media_dict st med) =
             datetime.strftime (SeriesMedias.added_timestamp med) iso_seconds
          /\ Permutation (MediaDict.subtitle_languages (media_dict st med))
               (map SeriesSubtitles.language
                  (filter (fun s => Z.eqb (SeriesSubtitles.series_media s)
                                      (SeriesMedias.id med))
                     (seriessubtitles st)))
          /\ Sorted lexicographic
               (MediaDict.subtitle_languages (media_dict st med))).
Proof.
  set (ordered := order_by_desc text_leb SeriesMedias.series_title
                    (seriesmedias st)).
  exists ordered, (map (media_dict st) (firstn 100 ordered)).
  assert (Hperm : Permutation (seriesmedias st) ordered) by apply sort_perm.
  assert (Hsorted : Sorted stored_title_desc ordered)
    by apply stored_title_order.
  assert (Hlen : List.length (map (media_dict st) (firstn 100 ordered))
                 = Nat.min 100 (List.length (seriesmedias st))).
  { rewrite length_map, length_firstn, <- (Permutation_length Hperm).
    reflexivity. }
  assert (Hlangs : forall med,
             Sorted lexicographic
               (MediaDict.subtitle_languages (media_dict st med))).
  { intros med. cbn. unfold sorted.
    apply (sort_sorted String.leb). apply String.leb_total. }
  split; [exact Hperm|]. split; [exact Hsorted|]. split; [reflexivity|].
  split; [apply get_medias_series_run|].
  split; [rewrite Hlen; apply Nat.le_min_l|]. split; [exact Hlen|].
  split; [|split].
  - apply Sorted_map with (R := stored_title_desc).
    + intros x y H; exact H.
    + apply Sorted_firstn, Hsorted.
  - apply Forall_forall; intros row Hin.
    apply in_map_iff in Hin; destruct Hin as [med [<- _]]. apply Hlangs.
  - intros med. repeat (split; [reflexivity|]). split; [|apply Hlangs].
    cbn. unfold sorted. apply Permutation_sym, sort_perm.
Qed.

Lemma get_recent_events_run (limit : Z) (st : state) :
  (int64_min <= limit <= int64_max)%Z ->
  get_recent_events limit st =
  (Return (map event_dict
             (limited limit
                (order_by_desc datetime.leb Events.timestamp (events st)))),
   st).
Proof.
  intros H. unfold get_recent_events, bind, select.
  rewrite sql_limit_in_range by exact H. reflexivity.
Qed.

Lemma get_recent_events_refused (limit : Z) (st : state) :
  (int64_max < limit)%Z ->
  get_recent_events limit st = (Raise IntegrityError, st).
Proof.
  intros H. unfold get_recent_events, bind, select.
  rewrite sql_limit_out_of_range by exact H. reflexivity.
Qed.

Lemma insert_event_run (now : nat -> datetime.t) (thetype message : string)
    (st : state) :
  insert_event now thetype message st =
  (Return tt,
   with_events (tick st)
     (events st ++ [inserted_event now st thetype message])).
Proof. reflexivity. Qed.

Lemma recent_first_total (a b : Events.t) :
  datetime.leb (Events.timestamp b) (Events.timestamp a) = true
  \/ datetime.leb (Events.timestamp a) (Events.timestamp b) = true.
Proof. apply datetime_leb_total. Qed.

Lemma recent_first_trans : Relations_1.Transitive recent_first.
Proof.
  intros a b c Hab Hbc. unfold recent_first in *.
  eapply datetime_leb_trans; eassumption.
Qed.

Lemma order_by_desc_events_sorted (l : list Events.t) :
  Sorted recent_first (order_by_desc datetime.leb Events.timestamp l).
Proof.
  unfold order_by_desc.
  apply (sort_sorted
           (fun x y => datetime.leb (Events.timestamp y) (Events.timestamp x))).
  intros x y; apply recent_first_total.
Qed.

(** A row later than every other row is the first of the ordered table. *)
Lemma latest_is_first (l : list Events.t) (e : Events.t) :
  Forall (fun x => datetime.ltb (Events.timestamp x) (Events.timestamp e) = true)
    l ->
  exists rest,
    order_by_desc datetime.leb Events.timestamp (l ++ [e]) = e :: rest.
Proof.
  intros Hlate.
  pose proof (order_by_desc_events_sorted (l ++ [e])) as Hs.
  assert (Hp : Permutation (l ++ [e])
                 (order_by_desc datetime.leb Events.timestamp (l ++ [e])))
    by apply sort_perm.
  destruct (order_by_desc datetime.leb Events.timestamp (l ++ [e]))
    as [|h tl] eqn:E.
  - apply Permutation_sym, Permutation_nil in Hp.
    destruct l; discriminate.
  - exists tl. f_equal.
    assert (Hh : In h (l ++ [e]))
      by (eapply Permutation_in; [apply Permutation_sym, Hp | left; reflexivity]).
    apply in_app_iff in Hh. destruct Hh as [Hh | [Hh | []]]; [|auto].
    exfalso.
    rewrite Forall_forall in Hlate. specialize (Hlate h Hh).
    unfold datetime.ltb in Hlate. apply negb_true_iff in Hlate.
    assert (He : In e (h :: tl))
      by (eapply Permutation_in; [exact Hp | apply in_app_iff; right; left; reflexivity]).
    destruct He as [He | He].
    + subst h. destruct (datetime_leb_total (Events.timestamp e) (Events.timestamp e));
        congruence.
    + apply Sorted_StronglySorted in Hs; [|exact recent_first_trans].
      apply StronglySorted_inv in Hs. destruct Hs as [_ Hall].
      rewrite Forall_forall in Hall. specialize (Hall e He).
      unfold recent_first in Hall. congruence.
Qed.

(** C8 (as amended): for a limit [0 <= limit < 2^63], [get_recent_events]
    returns the first [limit] rows of the events ordered most recent first
    by timestamp, each as a mapping holding the stored type and message and
    the timestamp printed with the format %Y-%m-%dT%H:%M:%S (the year in
    decimal, the other fields on two digits, no fraction of a second, no
    zone), and does not change the database.  After [insert_event], the new
    event is returned first for [1 <= limit] provided every event already
    stored has a strictly earlier timestamp than the clock reading the new
    event receives. *)
Theorem get_recent_events_most_recent_first
    (now : nat -> datetime.t) (st : state) (limit : Z)
    (thetype message : string) :
  (0 <= limit <= int64_max)%Z ->
  (exists ordered,
      Permutation (events st) ordered
      /\ Sorted recent_first ordered
      /\ get_recent_events limit st =
         (Return (map event_dict (firstn (Z.to_nat limit) ordered)), st))
  /\ (forall e,
        event_dict e =
        EventDict.mk
          (datetime.decimal (datetime.year (Events.timestamp e)) ++ "-"
           ++ datetime.zero_padded 2 (datetime.month (Events.timestamp e)) ++ "-"
           ++ datetime.zero_padded 2 (datetime.day (Events.timestamp e)) ++ "T"
           ++ datetime.zero_padded 2 (datetime.hour (Events.timestamp e)) ++ ":"
           ++ datetime.zero_padded 2 (datetime.minute (Events.timestamp e)) ++ ":"
           ++ datetime.zero_padded 2 (datetime.second (Events.timestamp e)))%string
          (Events.type e) (Events.message e))
  /\ ((1 <= limit)%Z ->
      Forall (fun e => datetime.ltb (Events.timestamp e) (now (ticks st)) = true)
        (events st) ->
      exists rest,
        outcome (get_recent_events limit)
          (exec (insert_event now thetype message) st) =
        Return (EventDict.mk
                  (datetime.strftime (now (ticks st)) iso_seconds)
                  thetype message :: rest)).
Proof.
  intros Hlimit.
  assert (Hrange : (int64_min <= limit <= int64_max)%Z)
    by (unfold int64_min; lia).
  split; [|split].
  - exists (order_by_desc datetime.leb Events.timestamp (events st)).
    split; [apply sort_perm|]. split; [apply order_by_desc_events_sorted|].
    rewrite get_recent_events_run by exact Hrange.
    rewrite limited_nonnegative by lia. reflexivity.
  - intros e. reflexivity.
  - intros Hone Hlate.
    unfold outcome, exec. rewrite insert_event_run.
    rewrite get_recent_events_run by exact Hrange.
    cbn [fst snd events with_events].
    destruct (latest_is_first (events st) (inserted_event now st thetype message))
      as [rest Hrest]; [exact Hlate|].
    rewrite Hrest, limited_nonnegative by lia.
    destruct (Z.to_nat limit) as [|n] eqn:En; [lia|].
    cbn. eexists; reflexivity.
Qed.

Lemma get_recent_events_most_recent_first_witness :
  exists rest,
    outcome (get_recent_events 1) (two_events steady_clock) =
    Return (EventDict.mk "2017-11-05T09:03:01" "download" "b" :: rest).
Proof.
  destruct (get_recent_events_most_recent_first steady_clock
              (exec (insert_event steady_clock "grab" "a") empty_db)
              1 "download" "b") as (_ & _ & Hfirst).
  - unfold int64_max. lia.
  - apply Hfirst.
    + lia.
    + repeat constructor.
Defined.

(** C8 as stated fails.  When the wall clock has been set back between two
    [insert_event] calls, the older event keeps the later timestamp and
    [get_recent_events 1] returns it, not the event just inserted; the same
    happens when the two events read the same time off the clock; a
    negative limit truncates nothing; and a limit of 2^63 is refused. *)
Lemma get_recent_events_newest_not_first :
  outcome (get_recent_events 1) (two_events autumn_clock) =
    Return [EventDict.mk "2017-10-29T02:30:00" "grab" "a"]
  /\ outcome (get_recent_events 1) (two_events coarse_clock) =
    Return [EventDict.mk "2017-10-29T02:30:00" "grab" "a"]
  /\ outcome (get_recent_events (-1)) (two_events autumn_clock) =
    Return [EventDict.mk "2017-10-29T02:30:00" "grab" "a";
            EventDict.mk "2017-10-29T02:10:00" "download" "b"]
  /\ outcome (get_recent_events (2 ^ 63)) (two_events autumn_clock) =
    Raise IntegrityError.
Proof. repeat split; reflexivity. Qed.

(* ------------------------------------------------------------------ *)
(** ** The assertion of [update_series_media] *)

(** C7: with [media_filename] empty ([None] or the empty string)
    [update_series_media] raises [AssertionError] before it touches the
    database: the state it leaves is the state it was given. *)
Theorem update_series_media_empty_filename
    (now : nat -> datetime.t)
    (series_title : option string)
    (tv_db_id season_number episode_number : option Z)
    (episode_title quality video_languages : option string)
    (dirty : bool) (st : state) :
  update_series_media now series_title tv_db_id season_number episode_number
    episode_title quality video_languages (Some "") dirty st =
  (Raise (AssertionError "media_filename cannot be None"), st)
  /\ update_series_media now series_title tv_db_id season_number episode_number
       episode_title quality video_languages None dirty st =
     (Raise (AssertionError "media_filename cannot be None"), st).
Proof. split; reflexivity. Qed.

(* ------------------------------------------------------------------ *)
(** ** [init] *)

Lemma lookup_remove (path : string) (fs : Lifecycle.filesystem) :
  Lifecycle.lookup path (Lifecycle.remove path fs) = None.
Proof.
  induction fs as [|[p e] fs IH]; simpl; [reflexivity|].
  destruct (String.eqb p path) eqn:E; simpl; [exact IH|].
  rewrite E. exact IH.
Qed.

(** C9: [init] with [reset_db] unlinks the file and opens nothing: when the
    unlink succeeds the file is gone and the handle is the one [init] was
    given (none, on a new object), so the deletion precedes the first open;
    when the unlink raises, [init] raises the same error and the file system
    is as it was; and a path with no file makes the unlink, hence [init],
    raise [FileNotFoundError]. *)
Theorem init_reset_unlinks_or_raises
    (path : string) (p : Lifecycle.process) :
  (forall e,
      Lifecycle.lookup path (Lifecycle.fs p) = Some e ->
      Lifecycle.removable e = true ->
      Lifecycle.entry_kind e = Lifecycle.RegularFile ->
      exists p',
        Lifecycle.init path true p = (Return tt, p')
        /\ Lifecycle.lookup path (Lifecycle.fs p') = None
        /\ Lifecycle.sqlite_db_path (Lifecycle.self p') = Some path
        /\ Lifecycle.database_field (Lifecycle.self p') =
           Lifecycle.database_field (Lifecycle.self p))
  /\ (forall err,
        fst (Lifecycle.unlink path (Lifecycle.fs p)) = Raise err ->
        fst (Lifecycle.init path true p) = Raise err
        /\ Lifecycle.fs (snd (Lifecycle.init path true p)) = Lifecycle.fs p)
  /\ (Lifecycle.lookup path (Lifecycle.fs p) = None ->
      fst (Lifecycle.init path true p) = Raise FileNotFoundError).
Proof.
  split; [|split].
  - intros e Hl Hr Hk. unfold Lifecycle.init, Lifecycle.unlink.
    rewrite Hl, Hr, Hk. simpl. eexists; split; [reflexivity|]. simpl.
    auto using lookup_remove.
  - intros err. unfold Lifecycle.init, Lifecycle.unlink.
    destruct (Lifecycle.lookup path (Lifecycle.fs p)) as [e|]; simpl.
    + destruct (Lifecycle.removable e); simpl.
      * destruct (Lifecycle.entry_kind e); simpl; [discriminate|].
        intros H; split; [exact H | reflexivity].
      * intros H; split; [exact H | reflexivity].
    + intros H; split; [exact H | reflexivity].
  - intros Hl. unfold Lifecycle.init, Lifecycle.unlink. rewrite Hl.
    reflexivity.
Qed.

Lemma init_reset_unlinks_or_raises_witness :
  (exists p',
      Lifecycle.init "/var/lib/dopplerr/sqlite.db" true
        (Lifecycle.mkProcess Lifecycle.new fs_with_db) = (Return tt, p')
      /\ Lifecycle.lookup "/var/lib/dopplerr/sqlite.db" (Lifecycle.fs p') = None
      /\ Lifecycle.sqlite_db_path (Lifecycle.self p') =
         Some "/var/lib/dopplerr/sqlite.db"
      /\ Lifecycle.database_field (Lifecycle.self p') = None)
  /\ fst (Lifecycle.init "/etc/passwd" true
            (Lifecycle.mkProcess Lifecycle.new fs_with_db)) =
     Raise PermissionError
  /\ fst (Lifecycle.init "/var/lib/dopplerr/sqlite.db" true
            (Lifecycle.mkProcess Lifecycle.new [])) =
     Raise FileNotFoundError.
Proof.
  split; [|split].
  - destruct (init_reset_unlinks_or_raises "/var/lib/dopplerr/sqlite.db"
                (Lifecycle.mkProcess Lifecycle.new fs_with_db))
      as (Hdel & _ & _).
    apply (Hdel (Lifecycle.mkEntry Lifecycle.RegularFile true));
      reflexivity.
  - destruct (init_reset_unlinks_or_raises "/etc/passwd"
                (Lifecycle.mkProcess Lifecycle.new fs_with_db))
      as (_ & Hraise & _).
    apply (Hraise PermissionError). reflexivity.
  - destruct (init_reset_unlinks_or_raises "/var/lib/dopplerr/sqlite.db"
                (Lifecycle.mkProcess Lifecycle.new []))
      as (_ & _ & Hmissing).
    apply Hmissing. reflexivity.
Defined.

(* ------------------------------------------------------------------ *)
(** ** Lists of rows *)

Lemma find_filter {A} (p : A -> bool) (l : list A) :
  find p l = hd_error (filter p l).
Proof.
  induction l as [|x l IH]; simpl; [reflexivity|].
  destruct (p x); [reflexivity | exact IH].
Qed.

Lemma filter_map_commute {A} (p : A -> bool) (g : A -> A) (l : list A) :
  (forall x, In x l -> p (g x) = p x) ->
  filter p (map g l) = map g (filter p l).
Proof.
  induction l as [|x l IH]; simpl; intros H; [reflexivity|].
  rewrite (H x) by auto. destruct (p x); simpl; rewrite IH; auto.
Qed.

Lemma NoDup_map_eq {A B} (f : A -> B) (l : list A) (a b : A) :
  NoDup (map f l) -> In a l -> In b l -> f a = f b -> a = b.
Proof.
  induction l as [|x l IH]; simpl; intros Hnd Ha Hb Hf; [contradiction|].
  inversion Hnd as [|? ? Hnotin Hnd']; subst.
  destruct Ha as [-> | Ha], Hb as [-> | Hb]; auto.
  - exfalso; apply Hnotin. rewrite Hf. apply in_map; assumption.
  - exfalso; apply Hnotin. rewrite <- Hf. apply in_map; assumption.
Qed.

Lemma next_id_above (ids : list Z) (i : Z) :
  In i ids -> (i < next_id ids)%Z.
Proof.
  unfold next_id. induction ids as [|j ids IH]; cbn [fold_right In];
    [contradiction|].
  intros [-> | H]; [lia | specialize (IH H); lia].
Qed.

Lemma next_id_fresh (ids : list Z) : ~ In (next_id ids) ids.
Proof. intros H. apply next_id_above in H. lia. Qed.

Lemma col_eq_iff (column value : option Z) :
  col_eq column value = true <-> column = value.
Proof.
  destruct column as [c|], value as [v|]; simpl; try (split; congruence).
  rewrite Z.eqb_eq. split; congruence.
Qed.

Lemma matches_key_iff (k : MediaKey.t) (r : SeriesMedias.t) :
  matches_key k r = true <-> key_of r = k.
Proof.
  unfold matches_key, key_of. destruct k as [tv s e f]; simpl.
  rewrite !andb_true_iff, !col_eq_iff, String.eqb_eq.
  split; [intros [[[-> ->] ->] ->]; reflexivity | intros H; injection H; auto].
Qed.

Lemma matches_key_same (k : MediaKey.t) (r r' : SeriesMedias.t) :
  key_of r' = key_of r -> matches_key k r' = matches_key k r.
Proof.
  intros H. destruct (matches_key k r) eqn:E.
  - apply matches_key_iff. rewrite H. apply matches_key_iff, E.
  - destruct (matches_key k r') eqn:E'; [|reflexivity].
    apply matches_key_iff in E'. rewrite H in E'.
    apply matches_key_iff in E'. congruence.
Qed.

Lemma map_id_replace (m : SeriesMedias.t) (l : list SeriesMedias.t) :
  map SeriesMedias.id (map (replace_by_id m) l) = map SeriesMedias.id l.
Proof.
  rewrite map_map. apply map_ext. intros r. unfold replace_by_id.
  destruct (Z.eqb_spec (SeriesMedias.id r) (SeriesMedias.id m)); auto.
Qed.

(** With unique ids, the UPDATE of [save] rewrites the saved row alone, so
    a row saved with its key unchanged changes no row's key. *)
Lemma replace_by_id_keeps_key (m r : SeriesMedias.t) (l : list SeriesMedias.t) :
  NoDup (map SeriesMedias.id l) -> In r l ->
  SeriesMedias.id m = SeriesMedias.id r -> key_of m = key_of r ->
  forall x, In x l -> key_of (replace_by_id m x) = key_of x.
Proof.
  intros Hnd Hr Hid Hkey x Hx. unfold replace_by_id.
  destruct (Z.eqb_spec (SeriesMedias.id x) (SeriesMedias.id m)) as [E|E];
    [|reflexivity].
  rewrite Hid in E.
  rewrite (NoDup_map_eq SeriesMedias.id l x r Hnd Hx Hr E). exact Hkey.
Qed.

Lemma map_replace_fresh (m : SeriesMedias.t) (l : list SeriesMedias.t) :
  ~ In (SeriesMedias.id m) (map SeriesMedias.id l) ->
  map (replace_by_id m) l = l.
Proof.
  intros H. rewrite <- (map_id l) at 2. apply map_ext_in. intros x Hx.
  unfold replace_by_id.
  destruct (Z.eqb_spec (SeriesMedias.id x) (SeriesMedias.id m)) as [E|E];
    [|reflexivity].
  exfalso; apply H. rewrite <- E. apply in_map; assumption.
Qed.

Lemma map_replace_self (m : SeriesMedias.t) (l : list SeriesMedias.t) :
  NoDup (map SeriesMedias.id l) -> In m l -> map (replace_by_id m) l = l.
Proof.
  intros Hnd Hm. rewrite <- (map_id l) at 2. apply map_ext_in. intros x Hx.
  unfold replace_by_id.
  destruct (Z.eqb_spec (SeriesMedias.id x) (SeriesMedias.id m)) as [E|E];
    [|reflexivity].
  symmetry. eapply NoDup_map_eq; eassumption.
Qed.

Lemma filter_singleton {A} (p : A -> bool) (l : list A) (r : A) :
  List.length (filter p l) <= 1 -> find p l = Some r -> filter p l = [r].
Proof.
  rewrite find_filter. destruct (filter p l) as [|x [|y tl]]; simpl;
    intros Hlen Hhd; try discriminate; [congruence | lia].
Qed.

Lemma find_none_filter {A} (p : A -> bool) (l : list A) :
  find p l = None -> filter p l = [].
Proof.
  rewrite find_filter. destruct (filter p l); simpl; congruence.
Qed.

(* ------------------------------------------------------------------ *)
(** ** States and what a table can hold *)

Lemma state_eq (a b : state) :
  events a = events b -> seriesmedias a = seriesmedias b ->
  seriessubtitles a = seriessubtitles b -> ticks a = ticks b -> a = b.
Proof.
  destruct a as [ea ma sa ta pa], b as [eb mb sb tb pb]; cbn.
  intros -> -> -> ->. f_equal. apply UIP_dec, bool_dec.
Qed.

Lemma write_seriesmedias_some (st : state) (l : list SeriesMedias.t) :
  storable_rows l = true ->
  exists st',
    write_seriesmedias st l = Some st'
    /\ seriesmedias st' = l
    /\ events st' = events st
    /\ seriessubtitles st' = seriessubtitles st
    /\ ticks st' = ticks st.
Proof.
  intros H. unfold write_seriesmedias.
  destruct (bool_dec (storable_rows l) true) as [ok | no]; [|contradiction].
  eexists. split; [reflexivity|]. auto.
Qed.

Lemma write_seriesmedias_none (st : state) (l : list SeriesMedias.t) :
  storable_rows l = false -> write_seriesmedias st l = None.
Proof.
  intros H. unfold write_seriesmedias.
  destruct (bool_dec (storable_rows l) true) as [ok | no];
    [congruence | reflexivity].
Qed.

Lemma stored_row_storable (st : state) (r : SeriesMedias.t) :
  In r (seriesmedias st) -> storable_row r = true.
Proof.
  intros H. pose proof (seriesmedias_storable st) as Hall.
  unfold storable_rows in Hall. rewrite forallb_forall in Hall. auto.
Qed.

Lemma storable_rows_app (l : list SeriesMedias.t) (r : SeriesMedias.t) :
  storable_rows (l ++ [r]) = storable_rows l && storable_row r.
Proof.
  unfold storable_rows. rewrite forallb_app. cbn. rewrite andb_true_r.
  reflexivity.
Qed.

Lemma storable_rows_replace (m : SeriesMedias.t) (l : list SeriesMedias.t) :
  storable_rows l = true -> storable_row m = true ->
  storable_rows (map (replace_by_id m) l) = true.
Proof.
  unfold storable_rows. rewrite !forallb_forall. intros Hl Hm x Hx.
  apply in_map_iff in Hx. destruct Hx as (y & <- & Hy).
  unfold replace_by_id. destruct (Z.eqb _ _); auto.
Qed.

Lemma storable_assign_fields (r : SeriesMedias.t)
    (t et q vl : option string) (d : bool) (f : string) :
  storable_row (assign_fields r t et q vl d f) = storable_row r.
Proof. reflexivity. Qed.

Lemma storable_set_dirty (r : SeriesMedias.t) (d : bool) :
  storable_row (set_dirty r d) = storable_row r.
Proof. reflexivity. Qed.

Lemma bindable_iff (v : option Z) :
  bindable v = true <->
  forall z, v = Some z -> (int64_min <= z <= int64_max)%Z.
Proof.
  destruct v as [z|]; cbn.
  - rewrite in_int64_iff. split.
    + intros H z' E. injection E as <-. exact H.
    + intros H. apply H. reflexivity.
  - split; [intros _ z E; discriminate | reflexivity].
Qed.

(** A stored integer column never equals a value that cannot be bound. *)
Lemma col_eq_unbindable (column value : option Z) :
  bindable column = true -> bindable value = false ->
  col_eq column value = false.
Proof.
  intros Hc Hv. destruct (col_eq column value) eqn:E; [|reflexivity].
  apply col_eq_iff in E. congruence.
Qed.

(* ------------------------------------------------------------------ *)
(** ** The statements on [seriesmedias] *)

Lemma SeriesMedias_get_run (now : nat -> datetime.t) (k : MediaKey.t)
    (st : state) :
  key_bindable k = true ->
  SeriesMedias_get k st =
  match find (matches_key k) (seriesmedias st) with
  | Some r => (Return r, st)
  | None => (Raise DoesNotExist, st)
  end.
Proof. intros H. unfold SeriesMedias_get. rewrite H. reflexivity. Qed.

Lemma SeriesMedias_get_overflow (k : MediaKey.t) (st : state) :
  key_bindable k = false -> SeriesMedias_get k st = (Raise OverflowError, st).
Proof. intros H. unfold SeriesMedias_get. rewrite H. reflexivity. Qed.

Lemma storable_created (now : nat -> datetime.t) (st : state)
    (k : MediaKey.t) :
  storable_row (created_media now st k) = key_bindable k.
Proof. reflexivity. Qed.

Lemma SeriesMedias_create_run (now : nat -> datetime.t) (k : MediaKey.t)
    (st : state) :
  key_bindable k = true ->
  exists st',
    SeriesMedias_create now k st = (Return (created_media now st k), st')
    /\ seriesmedias st' = seriesmedias st ++ [created_media now st k]
    /\ events st' = events st
    /\ seriessubtitles st' = seriessubtitles st
    /\ ticks st' = S (ticks st).
Proof.
  intros Hk. unfold SeriesMedias_create, bind, datetime_now.
  change (next_id (map SeriesMedias.id (seriesmedias (tick st))))
    with (next_id (map SeriesMedias.id (seriesmedias st))).
  change (seriesmedias (tick st)) with (seriesmedias st).
  fold (created_media now st k).
  destruct (write_seriesmedias_some (tick st)
              (seriesmedias st ++ [created_media now st k]))
    as (st' & Hw & Hm & He & Hs & Ht).
  { rewrite storable_rows_app, seriesmedias_storable, storable_created.
    exact Hk. }
  exists st'. rewrite Hw. auto.
Qed.

Lemma SeriesMedias_save_run (m : SeriesMedias.t) (st : state) :
  storable_row m = true ->
  exists st',
    SeriesMedias_save m st = (Return tt, st')
    /\ seriesmedias st' = map (replace_by_id m) (seriesmedias st)
    /\ events st' = events st
    /\ seriessubtitles st' = seriessubtitles st
    /\ ticks st' = ticks st.
Proof.
  intros Hm. unfold SeriesMedias_save. rewrite Hm.
  destruct (write_seriesmedias_some st
              (map (replace_by_id m) (seriesmedias st)))
    as (st' & Hw & Hrest).
  { apply storable_rows_replace; [apply seriesmedias_storable | exact Hm]. }
  exists st'. rewrite Hw. auto.
Qed.

(** Replace a call by the state a run lemma gives for it, and read the
    media table off that state. *)
Ltac run_step H :=
  let st' := fresh "st'" in
  let Hrun := fresh "Hrun" in
  let Hmed := fresh "Hmed" in
  destruct H as (st' & Hrun & Hmed & _);
  rewrite Hrun; cbn [fst snd]; rewrite ?Hmed.

(* ------------------------------------------------------------------ *)
(** ** [update_series_media] *)

Section UpdateSeriesMedia.

Variable now : nat -> datetime.t.
Variables (series_title : option string)
          (tv_db_id season_number episode_number : option Z)
          (episode_title quality video_languages : option string)
          (media_filename : string)
          (dirty : bool).

Let k := MediaKey.mk tv_db_id season_number episode_number media_filename.
Let call :=
  update_series_media now series_title tv_db_id season_number episode_number
    episode_title quality video_languages (Some media_filename) dirty.
Let write (r : SeriesMedias.t) :=
  assign_fields r series_title episode_title quality video_languages dirty
    media_filename.

Hypothesis filename_nonempty : media_filename <> "".
Hypothesis key_in_range : key_bindable k = true.

Lemma update_series_media_body (st : state) :
  call st =
  match find (matches_key k) (seriesmedias st) with
  | Some r => SeriesMedias_save (write r) st
  | None =>
      match SeriesMedias_create now k st with
      | (Return r, st') => SeriesMedias_save (write r) st'
      | (Raise e, st') => (Raise e, st')
      end
  end.
Proof.
  unfold call, update_series_media, bind, assert_, truthy.
  apply String.eqb_neq in filename_nonempty. rewrite filename_nonempty.
  cbn [negb ret]. unfold _get_or_create. cbn [get create SeriesMedias_Model].
  fold k. rewrite (SeriesMedias_get_run now k st key_in_range).
  destruct (find (matches_key k) (seriesmedias st)) as [r|]; [reflexivity|].
  unfold bind, ret.
  destruct (SeriesMedias_create now k st) as [[r | e] st']; reflexivity.
Qed.

(** The call when a row has the key: that row is rewritten in place. *)
Lemma update_series_media_found (st : state) (r : SeriesMedias.t) :
  find (matches_key k) (seriesmedias st) = Some r ->
  exists st',
    call st = (Return tt, st')
    /\ seriesmedias st' = map (replace_by_id (write r)) (seriesmedias st)
    /\ events st' = events st
    /\ seriessubtitles st' = seriessubtitles st
    /\ ticks st' = ticks st.
Proof.
  intros E. rewrite update_series_media_body, E.
  apply SeriesMedias_save_run.
  unfold write. rewrite storable_assign_fields.
  apply (stored_row_storable st). apply (find_some _ _ E).
Qed.

(** The call when no row has the key: a row is appended. *)
Lemma update_series_media_absent (st : state) :
  find (matches_key k) (seriesmedias st) = None ->
  exists st',
    call st = (Return tt, st')
    /\ seriesmedias st' = seriesmedias st ++ [write (created_media now st k)]
    /\ events st' = events st
    /\ seriessubtitles st' = seriessubtitles st
    /\ ticks st' = S (ticks st).
Proof.
  intros E. rewrite update_series_media_body, E.
  destruct (SeriesMedias_create_run now k st key_in_range)
    as (st1 & Hc & Hm1 & He1 & Hs1 & Ht1).
  rewrite Hc.
  destruct (SeriesMedias_save_run (write (created_media now st k)) st1)
    as (st' & Hsave & Hm & He & Hs & Ht).
  { unfold write. rewrite storable_assign_fields, storable_created.
    exact key_in_range. }
  exists st'. split; [exact Hsave|]. split; [|repeat split; congruence].
  rewrite Hm, Hm1, map_app. cbn [map]. f_equal.
  - apply map_replace_fresh. cbn. apply next_id_fresh.
  - unfold replace_by_id. cbn. rewrite Z.eqb_refl. reflexivity.
Qed.

Lemma update_series_media_returns (st : state) :
  outcome call st = Return tt
  /\ events (exec call st) = events st
  /\ seriessubtitles (exec call st) = seriessubtitles st.
Proof.
  unfold outcome, exec.
  destruct (find (matches_key k) (seriesmedias st)) as [r|] eqn:E.
  - destruct (update_series_media_found st r E) as (st' & -> & _ & He & Hs & _).
    auto.
  - destruct (update_series_media_absent st E) as (st' & -> & _ & He & Hs & _).
    auto.
Qed.

Lemma key_of_write (r : SeriesMedias.t) :
  key_of r = k -> key_of (write r) = k.
Proof.
  unfold key_of, write, assign_fields, k; cbn. intros H; injection H.
  congruence.
Qed.

Lemma write_write (r : SeriesMedias.t) : write (write r) = write r.
Proof. reflexivity. Qed.

Lemma update_series_media_post (st : state) :
  pk_unique st -> count_key k st <= 1 ->
  outcome call st = Return tt
  /\ pk_unique (exec call st)
  /\ (exists r, filter (matches_key k) (seriesmedias (exec call st)) = [write r]
                /\ key_of r = k)
  /\ (forall k', k' <> k -> count_key k' (exec call st) = count_key k' st)
  /\ events (exec call st) = events st
  /\ seriessubtitles (exec call st) = seriessubtitles st.
Proof.
  intros Hpk Hcount.
  destruct (update_series_media_returns st) as (Hret & Hevents & Hsubs).
  split; [exact Hret|].
  split; [|split; [|split; [|split; [exact Hevents | exact Hsubs]]]];
    unfold exec, pk_unique, count_key;
    destruct (find (matches_key k) (seriesmedias st)) as [r|] eqn:E.
  - run_step (update_series_media_found st r E). rewrite map_id_replace. exact Hpk.
  - run_step (update_series_media_absent st E). rewrite map_app. cbn.
    apply Permutation_NoDup with
      (l := next_id (map SeriesMedias.id (seriesmedias st))
            :: map SeriesMedias.id (seriesmedias st)).
    + apply Permutation_cons_append.
    + constructor; [apply next_id_fresh | exact Hpk].
  - run_step (update_series_media_found st r E).
    pose proof (find_some _ _ E) as [Hin Hmatch].
    apply matches_key_iff in Hmatch.
    exists r. split; [|exact Hmatch].
    rewrite filter_map_commute.
    + rewrite (filter_singleton _ _ r Hcount E). cbn.
      unfold replace_by_id. rewrite Z.eqb_refl. reflexivity.
    + intros x Hx. apply matches_key_same.
      apply replace_by_id_keeps_key with (r := r) (l := seriesmedias st);
        auto.
      rewrite Hmatch. apply key_of_write, Hmatch.
  - run_step (update_series_media_absent st E).
    exists (created_media now st k). split; [|destruct k; reflexivity].
    rewrite filter_app, (find_none_filter _ _ E). cbn.
    replace (matches_key k (write (created_media now st k))) with true;
      [reflexivity|].
    symmetry. apply matches_key_iff, key_of_write. destruct k; reflexivity.
  - run_step (update_series_media_found st r E). intros k' _.
    pose proof (find_some _ _ E) as [Hin Hmatch].
    apply matches_key_iff in Hmatch.
    rewrite filter_map_commute; [apply length_map|].
    intros x Hx. apply matches_key_same.
    apply replace_by_id_keeps_key with (r := r) (l := seriesmedias st); auto.
    rewrite Hmatch. apply key_of_write, Hmatch.
  - run_step (update_series_media_absent st E). intros k' Hk'. rewrite filter_app, length_app.
    cbn. destruct (matches_key k' (write (created_media now st k))) eqn:M.
    + apply matches_key_iff in M. exfalso; apply Hk'. rewrite <- M.
      apply key_of_write. destruct k; reflexivity.
    + cbn. lia.
Qed.

(** Every row after the call is a row from before it or carries the call's
    file name, and some row carries it. *)
Lemma update_series_media_rows (st : state) (x : SeriesMedias.t) :
  In x (seriesmedias (exec call st)) ->
  In x (seriesmedias st) \/ SeriesMedias.media_filename x = media_filename.
Proof.
  unfold exec.
  destruct (find (matches_key k) (seriesmedias st)) as [r|] eqn:E.
  - run_step (update_series_media_found st r E). intros H. apply in_map_iff in H. destruct H as (y & <- & Hy).
    unfold replace_by_id. destruct (Z.eqb _ _); auto.
  - run_step (update_series_media_absent st E). intros H. apply in_app_iff in H.
    destruct H as [H | [<- | []]]; auto.
Qed.

Lemma update_series_media_stores_filename (st : state) :
  exists x, In x (seriesmedias (exec call st))
            /\ SeriesMedias.media_filename x = media_filename.
Proof.
  unfold exec.
  destruct (find (matches_key k) (seriesmedias st)) as [r|] eqn:E.
  - run_step (update_series_media_found st r E). exists (write r). split; [|reflexivity].
    apply in_map_iff. exists r. split; [|apply (find_some _ _ E)].
    unfold replace_by_id. cbn. rewrite Z.eqb_refl. reflexivity.
  - run_step (update_series_media_absent st E). eexists. split; [apply in_app_iff; right; left; reflexivity|].
    reflexivity.
Qed.

End UpdateSeriesMedia.

(** C3: two [update_series_media] calls with the same identity key (the
    components may be NULL and are otherwise 64-bit integers, the file name
    is not empty) on a database that holds at most one row with that key
    both return, and leave exactly one row with the key; its descriptive
    fields and its dirty flag are the second call's arguments, whatever the
    first call's were. *)
Theorem update_series_media_last_write_wins
    (now : nat -> datetime.t)
    (tv_db_id season_number episode_number : option Z)
    (media_filename : string)
    (title1 episode_title1 quality1 languages1 : option string) (dirty1 : bool)
    (title2 episode_title2 quality2 languages2 : option string) (dirty2 : bool)
    (st : state) :
  media_filename <> "" ->
  key_bindable
    (MediaKey.mk tv_db_id season_number episode_number media_filename) = true ->
  pk_unique st ->
  count_key (MediaKey.mk tv_db_id season_number episode_number media_filename)
    st <= 1 ->
  let first :=
    update_series_media now title1 tv_db_id season_number episode_number
      episode_title1 quality1 languages1 (Some media_filename) dirty1 in
  let second :=
    update_series_media now title2 tv_db_id season_number episode_number
      episode_title2 quality2 languages2 (Some media_filename) dirty2 in
  outcome first st = Return tt
  /\ outcome second (exec first st) = Return tt
  /\ exists r,
       filter (matches_key
                 (MediaKey.mk tv_db_id season_number episode_number
                    media_filename))
         (seriesmedias (exec second (exec first st))) = [r]
       /\ SeriesMedias.quality r = quality2
       /\ SeriesMedias.series_title r = title2
       /\ SeriesMedias.episode_title r = episode_title2
       /\ SeriesMedias.video_languages r = languages2
       /\ SeriesMedias.dirty r = dirty2
       /\ SeriesMedias.media_filename r = media_filename.
Proof.
  intros Hf Hkey Hpk Hcount first second.
  destruct (update_series_media_post now title1 tv_db_id season_number
              episode_number episode_title1 quality1 languages1
              media_filename dirty1 Hf Hkey st Hpk Hcount)
    as (Hret1 & Hpk1 & (r1 & Hone1 & _) & _).
  fold first in Hret1, Hpk1, Hone1.
  assert (Hcount1 : count_key
                      (MediaKey.mk tv_db_id season_number episode_number
                         media_filename) (exec first st) <= 1)
    by (unfold count_key; rewrite Hone1; cbn; lia).
  destruct (update_series_media_post now title2 tv_db_id season_number
              episode_number episode_title2 quality2 languages2
              media_filename dirty2 Hf Hkey (exec first st) Hpk1 Hcount1)
    as (Hret2 & _ & (r2 & Hone2 & _) & _).
  fold second in Hret2, Hone2.
  split; [exact Hret1|]. split; [exact Hret2|].
  eexists. split; [exact Hone2|]. cbn. repeat split; reflexivity.
Qed.

Lemma update_series_media_last_write_wins_witness :
  exists r,
    filter (matches_key (MediaKey.mk None (Some 1%Z) None "ep2.mkv"))
      (seriesmedias
         (exec (update_series_media steady_clock (Some "B") None (Some 1%Z)
                  None None (Some "1080p") None (Some "ep2.mkv") false)
            (exec (update_series_media steady_clock (Some "A") None (Some 1%Z)
                     None None (Some "720p") None (Some "ep2.mkv") true)
               (one_media steady_clock)))) = [r]
    /\ SeriesMedias.quality r = Some "1080p".
Proof.
  destruct (update_series_media_last_write_wins steady_clock
              None (Some 1%Z) None "ep2.mkv"
              (Some "A") None (Some "720p") None true
              (Some "B") None (Some "1080p") None false
              (one_media steady_clock))
    as (_ & _ & r & Hone & Hq & _).
  - discriminate.
  - reflexivity.
  - unfold pk_unique. cbn. repeat constructor. intros [].
  - cbn. lia.
  - exists r. split; [exact Hone | exact Hq].
Defined.

(** C2: [update_series_media] called twice with the same key (the
    components may be NULL and are otherwise 64-bit integers, the file name
    is not empty) and the same field values, on a database that holds at
    most one row with that key, returns both times and leaves exactly one
    row with the key; the second call changes nothing at all. *)
Theorem update_series_media_idempotent
    (now : nat -> datetime.t)
    (series_title : option string)
    (tv_db_id season_number episode_number : option Z)
    (episode_title quality video_languages : option string)
    (media_filename : string) (dirty : bool) (st : state) :
  media_filename <> "" ->
  key_bindable
    (MediaKey.mk tv_db_id season_number episode_number media_filename) = true ->
  pk_unique st ->
  count_key (MediaKey.mk tv_db_id season_number episode_number media_filename)
    st <= 1 ->
  let call :=
    update_series_media now series_title tv_db_id season_number
      episode_number episode_title quality video_languages
      (Some media_filename) dirty in
  outcome call st = Return tt
  /\ outcome call (exec call st) = Return tt
  /\ count_key (MediaKey.mk tv_db_id season_number episode_number
                  media_filename) (exec call (exec call st)) = 1
  /\ exec call (exec call st) = exec call st.
Proof.
  intros Hf Hkey Hpk Hcount call.
  destruct (update_series_media_post now series_title tv_db_id season_number
              episode_number episode_title quality video_languages
              media_filename dirty Hf Hkey st Hpk Hcount)
    as (Hret1 & Hpk1 & (r1 & Hone1 & _) & _).
  fold call in Hret1, Hpk1, Hone1.
  set (k := MediaKey.mk tv_db_id season_number episode_number media_filename)
    in *.
  set (w := assign_fields r1 series_title episode_title quality
              video_languages dirty media_filename) in *.
  assert (Hfind : find (matches_key k) (seriesmedias (exec call st)) = Some w)
    by (rewrite find_filter, Hone1; reflexivity).
  assert (Hin : In w (seriesmedias (exec call st))).
  { apply (find_some _ _ Hfind). }
  destruct (update_series_media_found now series_title tv_db_id season_number
              episode_number episode_title quality video_languages
              media_filename dirty Hf Hkey (exec call st) w Hfind)
    as (st2 & Hrun2 & Hmed2 & Hev2 & Hsubs2 & Hticks2).
  fold call in Hrun2.
  change (assign_fields w series_title episode_title quality
            video_languages dirty media_filename) with w in Hmed2.
  rewrite map_replace_self in Hmed2 by assumption.
  assert (Hsame : exec call (exec call st) = exec call st).
  { unfold exec at 1. rewrite Hrun2. cbn [snd].
    apply state_eq; assumption. }
  split; [exact Hret1|]. split; [|split; [|exact Hsame]].
  - unfold outcome. rewrite Hrun2. reflexivity.
  - rewrite Hsame. unfold count_key. rewrite Hone1. reflexivity.
Qed.

Lemma update_series_media_idempotent_witness :
  count_key (MediaKey.mk None None None "movie.mkv")
    (exec (update_series_media steady_clock None None None None None None
             None (Some "movie.mkv") true)
       (exec (update_series_media steady_clock None None None None None None
                None (Some "movie.mkv") true)
          (one_media steady_clock))) = 1.
Proof.
  destruct (update_series_media_idempotent steady_clock None None None None
              None None None "movie.mkv" true (one_media steady_clock))
    as (_ & _ & Hone & _).
  - discriminate.
  - reflexivity.
  - unfold pk_unique. cbn. repeat constructor. intros [].
  - cbn. lia.
  - exact Hone.
Defined.

(** C10: a call of [update_series_media] whose key is that of a stored row
    (on a database with unique ids and at most one row with that key)
    creates no row and rewrites that row alone; the row keeps its id, its
    key and its [added_timestamp], and takes the call's [series_title],
    [episode_title], [quality], [video_languages], [dirty] (and the same
    [media_filename]). *)
Theorem update_series_media_keeps_added_timestamp
    (now : nat -> datetime.t) (r : SeriesMedias.t)
    (series_title episode_title quality video_languages : option string)
    (dirty : bool) (st : state) :
  pk_unique st ->
  count_key (key_of r) st <= 1 ->
  In r (seriesmedias st) ->
  SeriesMedias.media_filename r <> "" ->
  let call :=
    update_series_media now series_title (SeriesMedias.tv_db_id r)
      (SeriesMedias.season_number r) (SeriesMedias.episode_number r)
      episode_title quality video_languages
      (Some (SeriesMedias.media_filename r)) dirty in
  let r' :=
    SeriesMedias.mk (SeriesMedias.id r) (SeriesMedias.tv_db_id r)
      (SeriesMedias.season_number r) (SeriesMedias.episode_number r)
      (SeriesMedias.added_timestamp r)
      series_title episode_title quality video_languages dirty
      (SeriesMedias.media_filename r) in
  outcome call st = Return tt
  /\ seriesmedias (exec call st) =
     map (fun x => if Z.eqb (SeriesMedias.id x) (SeriesMedias.id r)
                   then r' else x)
       (seriesmedias st)
  /\ In r' (seriesmedias (exec call st))
  /\ (forall x, In x (seriesmedias (exec call st)) ->
        SeriesMedias.id x = SeriesMedias.id r ->
        SeriesMedias.added_timestamp x = SeriesMedias.added_timestamp r)
  /\ (forall x, In x (seriesmedias st) ->
        SeriesMedias.id x <> SeriesMedias.id r ->
        In x (seriesmedias (exec call st))).
Proof.
  intros Hpk Hcount Hin Hf call r'.
  assert (Hfind : find (matches_key (key_of r)) (seriesmedias st) = Some r).
  { destruct (find (matches_key (key_of r)) (seriesmedias st)) as [r0|] eqn:E.
    - pose proof (filter_singleton _ _ r0 Hcount E) as Hone.
      assert (Hr : In r (filter (matches_key (key_of r)) (seriesmedias st))).
      { apply filter_In. split; [exact Hin|]. apply matches_key_iff.
        reflexivity. }
      rewrite Hone in Hr. destruct Hr as [-> | []]. reflexivity.
    - exfalso. eapply find_none in E; [|exact Hin].
      assert (matches_key (key_of r) r = true)
        by (apply matches_key_iff; reflexivity).
      congruence. }
  destruct (update_series_media_found now series_title
              (SeriesMedias.tv_db_id r) (SeriesMedias.season_number r)
              (SeriesMedias.episode_number r) episode_title quality
              video_languages (SeriesMedias.media_filename r) dirty Hf
              (stored_row_storable st r Hin) st r Hfind)
    as (st1 & Hrun & Hmed & _).
  fold call in Hrun.
  assert (Htable : seriesmedias (exec call st) =
                   map (fun x => if Z.eqb (SeriesMedias.id x) (SeriesMedias.id r)
                                 then r' else x) (seriesmedias st)).
  { unfold exec. rewrite Hrun. cbn [snd]. rewrite Hmed. reflexivity. }
  split; [unfold outcome; rewrite Hrun; reflexivity|].
  split; [exact Htable|]. rewrite Htable. split; [|split].
  - apply in_map_iff. exists r. rewrite Z.eqb_refl. auto.
  - intros x Hx Hid. apply in_map_iff in Hx. destruct Hx as (y & Hy & Hyin).
    destruct (Z.eqb_spec (SeriesMedias.id y) (SeriesMedias.id r)) as [E|E].
    + subst x. reflexivity.
    + subst x. contradiction.
  - intros x Hx Hid. apply in_map_iff. exists x.
    destruct (Z.eqb_spec (SeriesMedias.id x) (SeriesMedias.id r)); tauto.
Qed.

Lemma update_series_media_keeps_added_timestamp_witness :
  seriesmedias
    (exec (update_series_media steady_clock (Some "Doctor Who (2005)")
             (Some 100%Z) (Some 1%Z) (Some 2%Z) None (Some "1080p") None
             (Some "ep2.mkv") false)
       (one_media steady_clock)) =
  [SeriesMedias.mk 1 (Some 100%Z) (Some 1%Z) (Some 2%Z) (steady_clock 0)
     (Some "Doctor Who (2005)") None (Some "1080p") None false "ep2.mkv"].
Proof.
  destruct (update_series_media_keeps_added_timestamp steady_clock
              (ep2_row steady_clock) (Some "Doctor Who (2005)") None
              (Some "1080p") None false (one_media steady_clock))
    as (_ & Htable & _).
  - unfold pk_unique. cbn. repeat constructor. intros [].
  - cbn. lia.
  - left. reflexivity.
  - discriminate.
  - exact Htable.
Defined.

(* ------------------------------------------------------------------ *)
(** ** [update_fetched_series_subtitles] *)

Lemma matches_subtitle_iff (i : Z) (lang : string) (s : SeriesSubtitles.t) :
  matches_subtitle (Some i) lang s = true <-> subtitle_pair s = (i, lang).
Proof.
  unfold matches_subtitle, subtitle_pair.
  rewrite andb_true_iff, String.eqb_eq, Z.eqb_eq.
  split; [intros [-> ->]; reflexivity | intros H; injection H; auto].
Qed.

Lemma find_subtitle_none (i : Z) (lang : string) (l : list SeriesSubtitles.t) :
  find (matches_subtitle (Some i) lang) l = None <->
  ~ In (i, lang) (map subtitle_pair l).
Proof.
  split.
  - intros Hnone Hin. apply in_map_iff in Hin. destruct Hin as (s & Hs & Hin).
    apply (find_none _ _ Hnone) in Hin.
    apply matches_subtitle_iff in Hs. congruence.
  - intros Hnot. destruct (find (matches_subtitle (Some i) lang) l) as [s|] eqn:E;
      [|reflexivity].
    exfalso; apply Hnot. apply find_some in E. destruct E as [Hin Hs].
    apply matches_subtitle_iff in Hs. rewrite <- Hs. apply in_map; assumption.
Qed.

Lemma find_subtitle_null (lang : string) (l : list SeriesSubtitles.t) :
  find (matches_subtitle None lang) l = None.
Proof.
  induction l as [|s l IH]; cbn; [reflexivity|].
  unfold matches_subtitle at 1. rewrite andb_false_r. exact IH.
Qed.

Section UpdateFetched.

Variable now : nat -> datetime.t.
Variable uid : SeriesEpisodeUid.t.
Variable dirty : bool.

Let q : Where := matches_uid uid.
Let media : SelectQuery := select_where_uid uid.

(** One turn of the first loop, statement by statement. *)
Lemma fetch_language_run (lang : string) (st : state) :
  fetch_language now media lang st =
  if uid_bindable uid then
    match find (matches_subtitle (scalar_subquery q st) lang)
            (seriessubtitles st) with
    | Some _ => (Return tt, st)
    | None =>
        match scalar_subquery q st with
        | None => (Raise IntegrityError, tick st)
        | Some i =>
            (Return tt,
             with_seriessubtitles (tick st)
               (seriessubtitles st ++
                [SeriesSubtitles.mk
                   (next_id (map SeriesSubtitles.id (seriessubtitles st)))
                   (now (ticks st)) i lang]))
        end
    end
  else (Raise OverflowError, st).
Proof.
  unfold fetch_language, bind, _get_or_create.
  cbn [get create SeriesSubtitles_Model].
  unfold SeriesSubtitles_get, SeriesSubtitles_create, bind, datetime_now, ret.
  cbn [SubtitleKey.series_media SubtitleKey.language].
  change (parameters_bindable media) with (uid_bindable uid).
  change (where_clause media) with q.
  destruct (uid_bindable uid); [|reflexivity].
  destruct (find (matches_subtitle (scalar_subquery q st) lang)
              (seriessubtitles st)); [reflexivity|].
  change (scalar_subquery q (tick st)) with (scalar_subquery q st).
  destruct (scalar_subquery q st); reflexivity.
Qed.

Hypothesis uid_in_range : uid_bindable uid = true.

(** One language when some media row matches: the pair is found, or a row
    holding it is appended. *)
Lemma fetch_language_some (lang : string) (i : Z) (st : state) :
  scalar_subquery q st = Some i ->
  exists st',
    fetch_language now media lang st = (Return tt, st')
    /\ seriesmedias st' = seriesmedias st
    /\ events st' = events st
    /\ ((In (i, lang) (map subtitle_pair (seriessubtitles st))
         /\ seriessubtitles st' = seriessubtitles st)
        \/ (~ In (i, lang) (map subtitle_pair (seriessubtitles st))
            /\ exists s, subtitle_pair s = (i, lang)
                 /\ seriessubtitles st' = seriessubtitles st ++ [s])).
Proof.
  intros Hsub. rewrite fetch_language_run, uid_in_range, Hsub.
  destruct (find (matches_subtitle (Some i) lang) (seriessubtitles st))
    as [s|] eqn:E.
  - eexists; split; [reflexivity|]. repeat split. left. split; [|reflexivity].
    apply find_some in E. destruct E as [Hin Hs].
    apply matches_subtitle_iff in Hs. rewrite <- Hs. apply in_map; assumption.
  - eexists; split; [reflexivity|]. cbn. repeat split. right.
    split; [apply find_subtitle_none, E|].
    eexists; split; [|reflexivity]. reflexivity.
Qed.

Lemma languages_loop_some (langs : list string) (i : Z) :
  forall st,
    scalar_subquery q st = Some i ->
    exists st',
      for_each langs (fetch_language now media) st = (Return tt, st')
      /\ seriesmedias st' = seriesmedias st
      /\ events st' = events st
      /\ (pairs_unique st -> pairs_unique st')
      /\ (forall m l, has_subtitle st' m l <->
                      has_subtitle st m l \/ (m = i /\ In l langs)).
Proof.
  induction langs as [|lang langs IH]; intros st Hsub.
  - exists st. cbn. repeat split; auto. tauto.
  - destruct (fetch_language_some lang i st Hsub)
      as (st1 & Hrun & Hmed & Hev & Hcases).
    assert (Hsub1 : scalar_subquery q st1 = Some i)
      by (unfold scalar_subquery in *; rewrite Hmed; exact Hsub).
    assert (Hpairs1 : pairs_unique st -> pairs_unique st1).
    { unfold pairs_unique in *. intros Hpairs.
      destruct Hcases as [[_ ->] | [Hnot (s & Hs & ->)]]; [exact Hpairs|].
      rewrite map_app. cbn. rewrite Hs.
      eapply Permutation_NoDup; [apply Permutation_cons_append|].
      constructor; assumption. }
    destruct (IH st1 Hsub1) as (st' & Hloop & Hmed' & Hev' & Hpairs' & Hhas).
    exists st'. cbn [for_each]. unfold bind at 1. rewrite Hrun.
    split; [exact Hloop|]. split; [congruence|]. split; [congruence|].
    split; [auto|].
    intros m l. rewrite Hhas. unfold has_subtitle. cbn [In].
    destruct Hcases as [[Hin ->] | [Hnot (s & Hs & ->)]].
    + split; [tauto|]. intros [H | [-> [<- | H]]]; auto.
    + rewrite map_app, in_app_iff. cbn. rewrite Hs.
      split.
      * intros [[H | [H | []]] | H]; [tauto | | tauto].
        injection H as <- <-. auto.
      * intros [H | [-> [<- | H]]]; auto.
Qed.

(** With no matching media row the first language makes the INSERT fail. *)
Lemma languages_loop_none (lang : string) (langs : list string) (st : state) :
  scalar_subquery q st = None ->
  for_each (lang :: langs) (fetch_language now media) st =
  (Raise IntegrityError, tick st).
Proof.
  intros Hsub. cbn [for_each]. unfold bind at 1.
  rewrite fetch_language_run, uid_in_range, Hsub, find_subtitle_null.
  reflexivity.
Qed.

Lemma execute_run (st : state) :
  execute media st = (Return (filter q (seriesmedias st)), st).
Proof.
  unfold execute, select.
  change (parameters_bindable media) with (uid_bindable uid).
  rewrite uid_in_range. reflexivity.
Qed.

Lemma dirty_loop_run (rows : list SeriesMedias.t) :
  forall st,
    (forall m, In m rows -> storable_row m = true) ->
    exists st',
      for_each rows (fun m => SeriesMedias_save (set_dirty m dirty)) st =
      (Return tt, st')
      /\ seriesmedias st' = saves dirty rows (seriesmedias st)
      /\ events st' = events st
      /\ seriessubtitles st' = seriessubtitles st
      /\ ticks st' = ticks st.
Proof.
  induction rows as [|m rows IH]; intros st Hrows.
  - exists st. cbn. auto.
  - destruct (SeriesMedias_save_run (set_dirty m dirty) st)
      as (st1 & Hsave & Hm1 & He1 & Hs1 & Ht1).
    { rewrite storable_set_dirty. apply Hrows. left. reflexivity. }
    destruct (IH st1) as (st' & Hloop & Hm & He & Hs & Ht).
    { intros m' Hm'. apply Hrows. right. exact Hm'. }
    exists st'. cbn [for_each]. unfold bind at 1. rewrite Hsave.
    split; [exact Hloop|]. split; [|repeat split; congruence].
    rewrite Hm, Hm1. reflexivity.
Qed.

(** The last two statements, after a first loop that returned. *)
Lemma update_fetched_after_loop (langs : list string) (st st1 : state) :
  for_each langs (fetch_language now media) st = (Return tt, st1) ->
  seriesmedias st1 = seriesmedias st ->
  exists st',
    update_fetched_series_subtitles now uid langs dirty st = (Return tt, st')
    /\ seriesmedias st' =
       saves dirty (filter q (seriesmedias st)) (seriesmedias st)
    /\ events st' = events st1
    /\ seriessubtitles st' = seriessubtitles st1
    /\ ticks st' = ticks st1.
Proof.
  intros Hloop Hmed.
  destruct (dirty_loop_run (filter q (seriesmedias st1)) st1)
    as (st' & Hdirty & Hm & He & Hs & Ht).
  { intros m Hm. apply filter_In in Hm.
    apply (stored_row_storable st1). tauto. }
  exists st'. split.
  - change (update_fetched_series_subtitles now uid langs dirty st)
      with ((for_each langs (fetch_language now media) ;;;
             rows <- execute media ;;
             for_each rows
               (fun m => SeriesMedias_save (set_dirty m dirty))) st).
    unfold bind at 1. rewrite Hloop. unfold bind. rewrite execute_run.
    exact Hdirty.
  - rewrite Hm, Hmed. auto.
Qed.

Lemma selection_ids_unique (where_ : Where)
    (table : list SeriesMedias.t) :
  NoDup (map SeriesMedias.id table) ->
  NoDup (map SeriesMedias.id (filter where_ table)).
Proof.
  induction table as [|r table IH]; cbn; intros Hnd; [constructor|].
  inversion Hnd as [|? ? Hfresh Hrest]; subst.
  destruct (where_ r); cbn; auto. constructor; auto.
  intros Hin; apply Hfresh. apply in_map_iff in Hin.
  destruct Hin as (y & Hy & Hyin). apply filter_In in Hyin.
  rewrite <- Hy. apply in_map; tauto.
Qed.

(** The saves of rows taken from a table with unique ids set the flag of
    those rows and leave the others alone. *)
Lemma saves_pointwise (rows : list SeriesMedias.t) :
  forall table,
    NoDup (map SeriesMedias.id table) ->
    NoDup (map SeriesMedias.id rows) ->
    (forall m, In m rows -> In m table) ->
    saves dirty rows table =
    map (fun r => if existsb (fun m => Z.eqb (SeriesMedias.id m)
                                         (SeriesMedias.id r)) rows
                  then set_dirty r dirty else r)
      table.
Proof.
  induction rows as [|m rows IH]; intros table Htable Hrows Hsub.
  - cbn. symmetry. apply map_id.
  - change (saves dirty (m :: rows) table)
      with (saves dirty rows (map (replace_by_id (set_dirty m dirty)) table)).
    inversion Hrows as [|? ? Hnotin Hrows']; subst.
    rewrite IH.
    + rewrite map_map. apply map_ext_in. intros x Hx. cbn [existsb].
      unfold replace_by_id. cbn [SeriesMedias.id set_dirty].
      destruct (Z.eqb_spec (SeriesMedias.id x) (SeriesMedias.id m)) as [E|E].
      * assert (x = m)
          by exact (NoDup_map_eq SeriesMedias.id table x m Htable Hx
                      (Hsub m (in_eq m rows)) E).
        subst x. rewrite Z.eqb_refl. cbn.
        destruct (existsb _ rows) eqn:Ex; [|reflexivity].
        exfalso. apply existsb_exists in Ex. destruct Ex as (m' & Hm' & Eid).
        apply Z.eqb_eq in Eid. apply Hnotin. cbn in Eid. rewrite <- Eid.
        apply in_map; assumption.
      * destruct (Z.eqb_spec (SeriesMedias.id m) (SeriesMedias.id x));
          [congruence|]. reflexivity.
    + rewrite map_id_replace. exact Htable.
    + exact Hrows'.
    + intros m' Hm'. apply in_map_iff. exists m'. split; [|auto using in_cons].
      unfold replace_by_id. cbn.
      destruct (Z.eqb_spec (SeriesMedias.id m') (SeriesMedias.id m)) as [E|E];
        [|reflexivity].
      exfalso; apply Hnotin. rewrite <- E. apply in_map; assumption.
Qed.

Lemma saves_matching (table : list SeriesMedias.t) :
  NoDup (map SeriesMedias.id table) ->
  saves dirty (filter q table) table = map (mark uid dirty) table.
Proof.
  intros Hnd. rewrite saves_pointwise.
  - apply map_ext_in. intros r Hr. unfold mark. fold q.
    destruct (q r) eqn:Eq.
    + replace (existsb _ (filter q table)) with true; [reflexivity|].
      symmetry. apply existsb_exists. exists r. split.
      * apply filter_In; auto.
      * apply Z.eqb_refl.
    + destruct (existsb _ (filter q table)) eqn:Ex; [|reflexivity].
      exfalso. apply existsb_exists in Ex. destruct Ex as (m & Hm & Eid).
      apply filter_In in Hm. destruct Hm as [Hm Hqm]. apply Z.eqb_eq in Eid.
      assert (m = r) by (eapply NoDup_map_eq; eauto). congruence.
  - exact Hnd.
  - apply selection_ids_unique, Hnd.
  - intros m Hm. apply filter_In in Hm. tauto.
Qed.

Lemma matches_uid_set_dirty (r : SeriesMedias.t) (d : bool) :
  matches_uid uid (set_dirty r d) = matches_uid uid r.
Proof. reflexivity. Qed.

Lemma matches_uid_mark (r : SeriesMedias.t) :
  matches_uid uid (mark uid dirty r) = matches_uid uid r.
Proof. unfold mark. destruct (matches_uid uid r) eqn:E; auto. Qed.

Lemma id_mark (r : SeriesMedias.t) :
  SeriesMedias.id (mark uid dirty r) = SeriesMedias.id r.
Proof. unfold mark. destruct (matches_uid uid r); reflexivity. Qed.

Lemma key_of_mark (r : SeriesMedias.t) : key_of (mark uid dirty r) = key_of r.
Proof. unfold mark. destruct (matches_uid uid r); reflexivity. Qed.

Lemma find_map_mark (l : list SeriesMedias.t) :
  find q (map (mark uid dirty) l) = option_map (mark uid dirty) (find q l).
Proof.
  induction l as [|r l IH]; cbn; [reflexivity|].
  unfold q at 1. rewrite matches_uid_mark. fold q.
  destruct (q r); [reflexivity | exact IH].
Qed.

Lemma map_mark_none (l : list SeriesMedias.t) :
  find q l = None -> map (mark uid dirty) l = l.
Proof.
  intros H. rewrite <- (map_id l) at 2. apply map_ext_in. intros r Hr.
  unfold mark. fold q. rewrite (find_none _ _ H r Hr). reflexivity.
Qed.

(** The whole call with a uid that can be bound, from a database with
    unique media ids. *)
Lemma update_fetched_in_range (langs : list string) (st : state) :
  pk_unique st ->
  let st' := exec (update_fetched_series_subtitles now uid langs dirty) st in
  seriesmedias st' = map (mark uid dirty) (seriesmedias st)
  /\ events st' = events st
  /\ (pairs_unique st -> pairs_unique st')
  /\ (forall m l, has_subtitle st' m l <->
                  has_subtitle st m l
                  \/ (scalar_subquery q st = Some m /\ In l langs))
  /\ outcome (update_fetched_series_subtitles now uid langs dirty) st =
     match scalar_subquery q st, langs with
     | None, _ :: _ => Raise IntegrityError
     | _, _ => Return tt
     end.
Proof.
  intros Hpk. unfold exec, outcome.
  destruct (scalar_subquery q st) as [i|] eqn:Hsub.
  - destruct (languages_loop_some langs i st Hsub)
      as (st1 & Hloop & Hmed & Hev & Hpairs1 & Hhas).
    destruct (update_fetched_after_loop langs st st1 Hloop Hmed)
      as (st' & Hrun & Hm & He & Hs & _).
    rewrite Hrun. cbn [fst snd]. rewrite Hm, saves_matching by exact Hpk.
    split; [reflexivity|]. split; [congruence|].
    split; [unfold pairs_unique in *; rewrite Hs; exact Hpairs1|].
    split; [|destruct langs; reflexivity].
    intros m l. unfold has_subtitle in *. rewrite Hs, Hhas. split.
    + intros [H | [-> H]]; auto.
    + intros [H | [H1 H2]]; auto. injection H1 as ->. auto.
  - assert (Hnone : find q (seriesmedias st) = None).
    { unfold scalar_subquery in Hsub.
      destruct (find q (seriesmedias st)); [discriminate | reflexivity]. }
    destruct langs as [|lang langs].
    + destruct (update_fetched_after_loop [] st st eq_refl eq_refl)
        as (st' & Hrun & Hm & He & Hs & _).
      rewrite Hrun. cbn [fst snd].
      rewrite Hm, (find_none_filter _ _ Hnone), (map_mark_none _ Hnone).
      split; [reflexivity|]. split; [exact He|].
      split; [unfold pairs_unique; rewrite Hs; auto|].
      split; [|reflexivity].
      intros m l. unfold has_subtitle. rewrite Hs. split; [auto|].
      intros [H | [H _]]; [exact H | discriminate].
    + assert (Hrun : update_fetched_series_subtitles now uid (lang :: langs)
                       dirty st = (Raise IntegrityError, tick st)).
      { change (update_fetched_series_subtitles now uid (lang :: langs)
                  dirty st)
          with ((for_each (lang :: langs) (fetch_language now media) ;;;
                 rows <- execute media ;;
                 for_each rows
                   (fun m => SeriesMedias_save (set_dirty m dirty))) st).
        unfold bind at 1.
        rewrite languages_loop_none by exact Hsub. reflexivity. }
      rewrite Hrun. cbn [fst snd tick seriesmedias events].
      rewrite (map_mark_none _ Hnone).
      split; [reflexivity|]. split; [reflexivity|]. split; [auto|].
      split; [|reflexivity].
      intros m l. unfold has_subtitle. cbn [seriessubtitles]. split; [auto|].
      intros [H | [H _]]; [exact H | discriminate].
Qed.

End UpdateFetched.

(** A uid that cannot be bound makes the first statement that binds it
    fail: nothing is read and nothing is written. *)
Lemma update_fetched_overflow (now : nat -> datetime.t)
    (uid : SeriesEpisodeUid.t) (langs : list string) (dirty : bool)
    (st : state) :
  uid_bindable uid = false ->
  update_fetched_series_subtitles now uid langs dirty st =
  (Raise OverflowError, st).
Proof.
  intros Hno.
  change (update_fetched_series_subtitles now uid langs dirty st)
    with ((for_each langs (fetch_language now (select_where_uid uid)) ;;;
           rows <- execute (select_where_uid uid) ;;
           for_each rows
             (fun m => SeriesMedias_save (set_dirty m dirty))) st).
  destruct langs as [|lang langs].
  - cbn [for_each]. unfold bind, ret, execute, select.
    change (parameters_bindable (select_where_uid uid))
      with (uid_bindable uid).
    rewrite Hno. reflexivity.
  - cbn [for_each]. unfold bind at 1 2.
    rewrite fetch_language_run, Hno. reflexivity.
Qed.

(** No stored row matches a uid that cannot be bound. *)
Lemma unbindable_uid_matches_nothing (uid : SeriesEpisodeUid.t)
    (st : state) (r : SeriesMedias.t) :
  uid_bindable uid = false -> In r (seriesmedias st) ->
  matches_uid uid r = false.
Proof.
  intros Hno Hr. apply (stored_row_storable st) in Hr.
  unfold storable_row in Hr. apply andb_true_iff in Hr.
  destruct Hr as [Hr He]. apply andb_true_iff in Hr. destruct Hr as [Htv Hs].
  unfold uid_bindable, parameters_bindable in Hno. cbn in Hno.
  rewrite andb_true_r in Hno. unfold matches_uid.
  destruct (bindable (SeriesEpisodeUid.tv_db_id uid)) eqn:B1;
    [|rewrite (col_eq_unbindable _ _ Htv B1); reflexivity].
  destruct (bindable (SeriesEpisodeUid.season_number uid)) eqn:B2;
    [|rewrite (col_eq_unbindable _ _ Hs B2), andb_false_r; reflexivity].
  cbn in Hno.
  rewrite (col_eq_unbindable _ _ He Hno), andb_false_r. reflexivity.
Qed.

Lemma unbindable_uid_finds_nothing (uid : SeriesEpisodeUid.t) (st : state) :
  uid_bindable uid = false ->
  find (matches_uid uid) (seriesmedias st) = None.
Proof.
  intros Hno.
  destruct (find (matches_uid uid) (seriesmedias st)) as [r|] eqn:E;
    [|reflexivity].
  destruct (find_some _ _ E) as [Hr Hm].
  rewrite (unbindable_uid_matches_nothing uid st r Hno Hr) in Hm.
  discriminate.
Qed.

(** The whole call, from a database with unique media ids. *)
Lemma update_fetched_post (now : nat -> datetime.t)
    (uid : SeriesEpisodeUid.t) (dirty : bool) (langs : list string)
    (st : state) :
  pk_unique st ->
  let st' := exec (update_fetched_series_subtitles now uid langs dirty) st in
  seriesmedias st' = map (mark uid dirty) (seriesmedias st)
  /\ events st' = events st
  /\ (pairs_unique st -> pairs_unique st')
  /\ (forall m l, has_subtitle st' m l <->
                  has_subtitle st m l
                  \/ (scalar_subquery (matches_uid uid) st = Some m
                      /\ In l langs))
  /\ outcome (update_fetched_series_subtitles now uid langs dirty) st =
     if uid_bindable uid then
       match scalar_subquery (matches_uid uid) st, langs with
       | None, _ :: _ => Raise IntegrityError
       | _, _ => Return tt
       end
     else Raise OverflowError.
Proof.
  intros Hpk. destruct (uid_bindable uid) eqn:B.
  - apply (update_fetched_in_range now uid dirty B langs st Hpk).
  - unfold exec, outcome. rewrite update_fetched_overflow by exact B.
    cbn [fst snd].
    pose proof (unbindable_uid_finds_nothing uid st B) as Hnone.
    rewrite (map_mark_none uid dirty _ Hnone).
    split; [reflexivity|]. split; [reflexivity|]. split; [auto|].
    split; [|reflexivity].
    intros m l. split; [auto|]. unfold scalar_subquery. rewrite Hnone.
    intros [H | [H _]]; [exact H | discriminate].
Qed.

(* ------------------------------------------------------------------ *)
(** ** Every database the module produces is well formed *)

Lemma key_eq_dec (k k' : MediaKey.t) : {k = k'} + {k <> k'}.
Proof.
  decide equality; try apply string_dec;
    decide equality; apply Z.eq_dec.
Defined.

Lemma empty_db_well_formed : well_formed empty_db.
Proof.
  split.
  - constructor.
  - intros k. cbn. lia.
  - constructor.
  - constructor.
Qed.

Lemma insert_event_well_formed (now : nat -> datetime.t)
    (thetype message : string) (st : state) :
  well_formed st -> well_formed (exec (insert_event now thetype message) st).
Proof.
  intros [Hpk Hkeys Hpairs Hnames]. unfold exec. rewrite insert_event_run.
  split; assumption.
Qed.

Lemma update_series_media_unchanged_on_assert (now : nat -> datetime.t)
    (series_title : option string)
    (tv_db_id season_number episode_number : option Z)
    (episode_title quality video_languages media_filename : option string)
    (dirty : bool) (st : state) :
  truthy media_filename = false ->
  exec (update_series_media now series_title tv_db_id season_number
          episode_number episode_title quality video_languages media_filename
          dirty) st = st.
Proof.
  intros H. unfold exec, update_series_media, bind, assert_. rewrite H.
  reflexivity.
Qed.

Lemma update_series_media_overflow (now : nat -> datetime.t)
    (series_title : option string)
    (tv_db_id season_number episode_number : option Z)
    (episode_title quality video_languages : option string)
    (media_filename : string) (dirty : bool) (st : state) :
  media_filename <> "" ->
  key_bindable
    (MediaKey.mk tv_db_id season_number episode_number media_filename)
  = false ->
  update_series_media now series_title tv_db_id season_number episode_number
    episode_title quality video_languages (Some media_filename) dirty st =
  (Raise OverflowError, st).
Proof.
  intros Hf Hkey. unfold update_series_media, bind, assert_, truthy.
  apply String.eqb_neq in Hf. rewrite Hf. cbn [negb ret].
  unfold _get_or_create. cbn [get create SeriesMedias_Model].
  rewrite SeriesMedias_get_overflow by exact Hkey. reflexivity.
Qed.

(** A call either changes nothing (the assertion or the binding of the key
    fails) or has a non-empty file name and a key that can be bound. *)
Lemma update_series_media_cases (now : nat -> datetime.t)
    (series_title : option string)
    (tv_db_id season_number episode_number : option Z)
    (episode_title quality video_languages media_filename : option string)
    (dirty : bool) (st : state) :
  exec (update_series_media now series_title tv_db_id season_number
          episode_number episode_title quality video_languages media_filename
          dirty) st = st
  \/ exists f,
       media_filename = Some f /\ f <> ""
       /\ key_bindable
            (MediaKey.mk tv_db_id season_number episode_number f) = true.
Proof.
  destruct (truthy media_filename) eqn:T.
  2:{ left. apply update_series_media_unchanged_on_assert, T. }
  destruct media_filename as [f|]; [|discriminate].
  assert (Hf : f <> "").
  { cbn in T. apply negb_true_iff, String.eqb_neq in T. exact T. }
  destruct (key_bindable
              (MediaKey.mk tv_db_id season_number episode_number f)) eqn:K.
  - right. exists f. auto.
  - left. unfold exec. rewrite update_series_media_overflow by assumption.
    reflexivity.
Qed.

Lemma update_series_media_well_formed (now : nat -> datetime.t)
    (series_title : option string)
    (tv_db_id season_number episode_number : option Z)
    (episode_title quality video_languages media_filename : option string)
    (dirty : bool) (st : state) :
  well_formed st ->
  well_formed
    (exec (update_series_media now series_title tv_db_id season_number
             episode_number episode_title quality video_languages
             media_filename dirty) st).
Proof.
  intros Hwf.
  destruct (update_series_media_cases now series_title tv_db_id season_number
              episode_number episode_title quality video_languages
              media_filename dirty st) as [-> | (f & -> & Hf & Hkey)];
    [exact Hwf|].
  destruct Hwf as [Hpk Hkeys Hpairs Hnames].
  destruct (update_series_media_post now series_title tv_db_id season_number
              episode_number episode_title quality video_languages f dirty
              Hf Hkey st Hpk (Hkeys _))
    as (_ & Hpk' & (r & Hone & _) & Hothers & _ & Hsubs).
  split.
  - exact Hpk'.
  - intros k'.
    destruct (key_eq_dec k'
                (MediaKey.mk tv_db_id season_number episode_number f))
      as [-> | Hne].
    + unfold count_key. rewrite Hone. cbn. lia.
    + rewrite Hothers by exact Hne. apply Hkeys.
  - unfold pairs_unique. rewrite Hsubs. exact Hpairs.
  - apply Forall_forall. intros x Hx.
    apply update_series_media_rows in Hx; [|exact Hf|exact Hkey].
    destruct Hx as [Hx | ->]; [|exact Hf].
    unfold filenames_nonempty in Hnames. rewrite Forall_forall in Hnames.
    auto.
Qed.

Lemma update_fetched_well_formed (now : nat -> datetime.t)
    (uid : SeriesEpisodeUid.t) (langs : list string) (dirty : bool)
    (st : state) :
  well_formed st ->
  well_formed (exec (update_fetched_series_subtitles now uid langs dirty) st).
Proof.
  intros [Hpk Hkeys Hpairs Hnames].
  destruct (update_fetched_post now uid dirty langs st Hpk)
    as (Htable & _ & Hpairs' & _).
  split.
  - unfold pk_unique. rewrite Htable, map_map.
    erewrite map_ext; [exact Hpk|]. intros r. apply id_mark.
  - intros k. unfold count_key. rewrite Htable.
    rewrite filter_map_commute
      by (intros x _; apply matches_key_same, key_of_mark).
    rewrite length_map. apply Hkeys.
  - auto.
  - unfold filenames_nonempty in *. rewrite Htable.
    apply Forall_forall. intros x Hx. apply in_map_iff in Hx.
    destruct Hx as (y & <- & Hy). rewrite Forall_forall in Hnames.
    specialize (Hnames y Hy). unfold mark.
    destruct (matches_uid uid y); exact Hnames.
Qed.

Lemma perform_well_formed (now : nat -> datetime.t) (c : call) (st : state) :
  well_formed st -> well_formed (perform now c st).
Proof.
  destruct c; cbn [perform];
    auto using insert_event_well_formed, update_series_media_well_formed,
      update_fetched_well_formed.
Qed.

Lemma fold_perform_well_formed (now : nat -> datetime.t) (h : list call) :
  forall st, well_formed st ->
             well_formed (fold_left (fun st c => perform now c st) h st).
Proof.
  induction h as [|c h IH]; intros st Hwf; cbn; auto using perform_well_formed.
Qed.

Lemma replay_well_formed (now : nat -> datetime.t) (h : list call) :
  well_formed (replay now h).
Proof. apply fold_perform_well_formed, empty_db_well_formed. Qed.

(* ------------------------------------------------------------------ *)
(** ** Claims on [update_fetched_series_subtitles] *)

Lemma matches_uid_iff (uid : SeriesEpisodeUid.t) (r : SeriesMedias.t) :
  matches_uid uid r = true <->
  SeriesMedias.tv_db_id r = SeriesEpisodeUid.tv_db_id uid
  /\ SeriesMedias.season_number r = SeriesEpisodeUid.season_number uid
  /\ SeriesMedias.episode_number r = SeriesEpisodeUid.episode_number uid.
Proof.
  unfold matches_uid. rewrite !andb_true_iff, !col_eq_iff. tauto.
Qed.

Lemma pk_unique_after_fetch (now : nat -> datetime.t)
    (uid : SeriesEpisodeUid.t) (langs : list string) (dirty : bool)
    (st : state) :
  pk_unique st ->
  pk_unique (exec (update_fetched_series_subtitles now uid langs dirty) st).
Proof.
  intros Hpk.
  destruct (update_fetched_post now uid dirty langs st Hpk) as (Htable & _).
  unfold pk_unique. rewrite Htable, map_map.
  erewrite map_ext; [exact Hpk|]. intros r. apply id_mark.
Qed.

Lemma scalar_subquery_after_fetch (now : nat -> datetime.t)
    (uid : SeriesEpisodeUid.t) (langs : list string) (dirty : bool)
    (st : state) :
  pk_unique st ->
  scalar_subquery (matches_uid uid)
    (exec (update_fetched_series_subtitles now uid langs dirty) st) =
  scalar_subquery (matches_uid uid) st.
Proof.
  intros Hpk.
  destruct (update_fetched_post now uid dirty langs st Hpk) as (Htable & _).
  unfold scalar_subquery. rewrite Htable, find_map_mark.
  destruct (find (matches_uid uid) (seriesmedias st)); cbn; [|reflexivity].
  rewrite id_mark. reflexivity.
Qed.

(** C4: after [update_fetched_series_subtitles uid langs dirty], for any
    [langs] (empty or not) and whether the call returned or raised, the
    media table is the old one with the dirty flag of every row matching
    [uid] set to [dirty]: matching rows carry [dirty], the other rows are
    the rows from before, unchanged. *)
Theorem update_fetched_sets_dirty
    (now : nat -> datetime.t) (uid : SeriesEpisodeUid.t)
    (langs : list string) (dirty : bool) (st : state) :
  pk_unique st ->
  let st' := exec (update_fetched_series_subtitles now uid langs dirty) st in
  seriesmedias st' = map (mark uid dirty) (seriesmedias st)
  /\ (forall r, In r (seriesmedias st') ->
        SeriesMedias.tv_db_id r = SeriesEpisodeUid.tv_db_id uid ->
        SeriesMedias.season_number r = SeriesEpisodeUid.season_number uid ->
        SeriesMedias.episode_number r = SeriesEpisodeUid.episode_number uid ->
        SeriesMedias.dirty r = dirty)
  /\ (forall r, In r (seriesmedias st) ->
        matches_uid uid r = true -> In (set_dirty r dirty) (seriesmedias st'))
  /\ (forall r, matches_uid uid r = false ->
        (In r (seriesmedias st) <-> In r (seriesmedias st'))).
Proof.
  intros Hpk st'.
  destruct (update_fetched_post now uid dirty langs st Hpk) as (Htable & _).
  fold st' in Htable. split; [exact Htable|]. rewrite Htable.
  split; [|split].
  - intros r Hr Htv Hs He. apply in_map_iff in Hr.
    destruct Hr as (y & <- & Hy).
    assert (Hm : matches_uid uid (mark uid dirty y) = true)
      by (apply matches_uid_iff; auto).
    rewrite matches_uid_mark in Hm. unfold mark. rewrite Hm. reflexivity.
  - intros r Hr Hm. apply in_map_iff. exists r. unfold mark. rewrite Hm. auto.
  - intros r Hm. rewrite in_map_iff. split.
    + intros Hr. exists r. unfold mark. rewrite Hm. auto.
    + intros (y & Hy & Hyin). rewrite <- Hy in Hm.
      rewrite matches_uid_mark in Hm. unfold mark in Hy. rewrite Hm in Hy.
      congruence.
Qed.

Lemma update_fetched_sets_dirty_witness :
  map SeriesMedias.dirty
    (seriesmedias
       (exec (update_fetched_series_subtitles steady_clock episode_1x02 []
                false)
          (exec (update_series_media steady_clock None None None None None
                   None None (Some "movie.mkv") true)
             (two_files steady_clock)))) = [false; false; true].
Proof.
  destruct (update_fetched_sets_dirty steady_clock episode_1x02 [] false
              (exec (update_series_media steady_clock None None None None
                       None None None (Some "movie.mkv") true)
                 (two_files steady_clock)))
    as (Htable & _).
  - unfold pk_unique. cbn. repeat constructor; cbn; intuition discriminate.
  - rewrite Htable. reflexivity.
Defined.

(** C1: from a database with unique media ids and no duplicate
    (series_media, language) pair, two calls of
    [update_fetched_series_subtitles] for the same episode, whatever their
    language lists, leave no duplicate pair, after the first call and after
    the second; the pairs stored are those from before together with the
    languages of either list for the media row the subtitles attach to (the
    first row matching the episode); and no history of calls on a fresh
    database ever produces a duplicate pair. *)
Theorem update_fetched_no_duplicate_subtitles
    (now : nat -> datetime.t) (uid : SeriesEpisodeUid.t)
    (langs1 langs2 : list string) (dirty1 dirty2 : bool) (st : state) :
  pk_unique st ->
  pairs_unique st ->
  let st1 := exec (update_fetched_series_subtitles now uid langs1 dirty1) st in
  let st2 := exec (update_fetched_series_subtitles now uid langs2 dirty2) st1 in
  pairs_unique st1
  /\ pairs_unique st2
  /\ (forall media lang,
        has_subtitle st2 media lang <->
        has_subtitle st media lang
        \/ (scalar_subquery (matches_uid uid) st = Some media
            /\ (In lang langs1 \/ In lang langs2)))
  /\ (forall h, pairs_unique (replay now h)).
Proof.
  intros Hpk Hpairs st1 st2.
  destruct (update_fetched_post now uid dirty1 langs1 st Hpk)
    as (_ & _ & Hpairs1 & Hhas1 & _).
  fold st1 in Hpairs1, Hhas1.
  assert (Hpk1 : pk_unique st1) by (apply pk_unique_after_fetch, Hpk).
  destruct (update_fetched_post now uid dirty2 langs2 st1 Hpk1)
    as (_ & _ & Hpairs2 & Hhas2 & _).
  fold st2 in Hpairs2, Hhas2.
  split; [auto|]. split; [auto|]. split.
  - intros media lang. rewrite Hhas2, Hhas1.
    unfold st1 at 1. rewrite scalar_subquery_after_fetch by exact Hpk.
    tauto.
  - intros h. apply replay_well_formed.
Qed.

Lemma update_fetched_no_duplicate_subtitles_witness :
  map subtitle_pair
    (seriessubtitles
       (exec (update_fetched_series_subtitles steady_clock episode_1x02
                ["fr"; "de"; "fr"] true)
          (exec (update_fetched_series_subtitles steady_clock episode_1x02
                   ["en"; "fr"] true)
             (two_files steady_clock)))) =
  [(1%Z, "en"); (1%Z, "fr"); (1%Z, "de")]
  /\ pairs_unique
       (exec (update_fetched_series_subtitles steady_clock episode_1x02
                ["fr"; "de"; "fr"] true)
          (exec (update_fetched_series_subtitles steady_clock episode_1x02
                   ["en"; "fr"] true)
             (two_files steady_clock))).
Proof.
  split; [reflexivity|].
  destruct (update_fetched_no_duplicate_subtitles steady_clock episode_1x02
              ["en"; "fr"] ["fr"; "de"; "fr"] true true
              (two_files steady_clock))
    as (_ & Hpairs & _).
  - unfold pk_unique. cbn. repeat constructor; cbn; intuition discriminate.
  - constructor.
  - exact Hpairs.
Defined.

(* ------------------------------------------------------------------ *)
(** ** [media_exists] *)

Lemma media_exists_run (f : string) (st : state) :
  media_exists f st =
  (Return (negb (Nat.eqb
                   (List.length
                      (filter (fun r => String.eqb
                                          (SeriesMedias.media_filename r) f)
                         (seriesmedias st))) 0)), st).
Proof. reflexivity. Qed.

Lemma media_exists_true_iff (f : string) (st : state) :
  outcome (media_exists f) st = Return true <->
  exists r, In r (seriesmedias st) /\ SeriesMedias.media_filename r = f.
Proof.
  unfold outcome. rewrite media_exists_run. cbn [fst].
  destruct (filter (fun r => String.eqb (SeriesMedias.media_filename r) f)
              (seriesmedias st)) as [|x tl] eqn:E; cbn.
  - split; [discriminate|]. intros (r & Hr & Hf).
    assert (In r []) as [].
    rewrite <- E. apply filter_In. split; [exact Hr|].
    apply String.eqb_eq, Hf.
  - split; [|reflexivity]. intros _.
    assert (Hx : In x (x :: tl)) by (left; reflexivity).
    rewrite <- E in Hx. apply filter_In in Hx. destruct Hx as [Hx Hf].
    exists x. split; [exact Hx | apply String.eqb_eq, Hf].
Qed.

Lemma media_exists_total (f : string) (st : state) :
  outcome (media_exists f) st = Return true
  \/ outcome (media_exists f) st = Return false.
Proof.
  unfold outcome. rewrite media_exists_run. cbn.
  destruct (negb _); auto.
Qed.

(** A history that never hands [f] to [update_series_media] stores no row
    named [f]. *)
Lemma unnamed_file_absent (now : nat -> datetime.t) (f : string)
    (h : list call) :
  forall st,
    well_formed st ->
    (forall r, In r (seriesmedias st) -> SeriesMedias.media_filename r <> f) ->
    (forall c, In c h -> call_filename c <> Some f) ->
    forall r,
      In r (seriesmedias (fold_left (fun st c => perform now c st) h st)) ->
      SeriesMedias.media_filename r <> f.
Proof.
  induction h as [|c h IH]; intros st Hwf Habs Hcalls; [exact Habs|].
  cbn [fold_left]. apply IH.
  - apply perform_well_formed, Hwf.
  - assert (Hc : call_filename c <> Some f) by (apply Hcalls; left; reflexivity).
    destruct c as [t m | t tv s e et q vl mf d | uid langs d]; cbn [perform].
    + exact Habs.
    + cbn in Hc.
      destruct (update_series_media_cases now t tv s e et q vl mf d st)
        as [-> | (g & -> & Hg & Hkey)]; [exact Habs|].
      intros r Hr.
      apply update_series_media_rows in Hr; [|exact Hg|exact Hkey].
      destruct Hr as [Hr | ->]; [auto | congruence].
    + destruct (update_fetched_post now uid d langs st (wf_pk st Hwf))
        as (Htable & _).
      rewrite Htable. intros r Hr. apply in_map_iff in Hr.
      destruct Hr as (y & <- & Hy). unfold mark.
      destruct (matches_uid uid y); cbn; auto.
  - intros c' Hc'. apply Hcalls. right. exact Hc'.
Qed.

(** C6: [media_exists f] returns without changing the database, and returns
    true exactly when some media row has [media_filename] equal to [f].  It
    returns false on every database built by calls none of which handed [f]
    to [update_series_media], and true right after a call of
    [update_series_media] with the (non-empty) name [f] and a key whose
    integers are NULL or 64-bit, which is when the call returns. *)
Theorem media_exists_iff_row
    (now : nat -> datetime.t) (f : string) (st : state) :
  (exists b,
      media_exists f st = (Return b, st)
      /\ (b = true <->
          exists r, In r (seriesmedias st)
                    /\ SeriesMedias.media_filename r = f))
  /\ (forall h,
        (forall c, In c h -> call_filename c <> Some f) ->
        outcome (media_exists f) (replay now h) = Return false)
  /\ (f <> "" ->
      forall series_title tv_db_id season_number episode_number episode_title
             quality video_languages dirty,
        key_bindable (MediaKey.mk tv_db_id season_number episode_number f)
        = true ->
        outcome (update_series_media now series_title tv_db_id season_number
                   episode_number episode_title quality video_languages
                   (Some f) dirty) st = Return tt
        /\ outcome (media_exists f)
             (exec (update_series_media now series_title tv_db_id
                      season_number episode_number episode_title quality
                      video_languages (Some f) dirty) st) = Return true).
Proof.
  split; [|split].
  - eexists. split; [apply media_exists_run|].
    rewrite <- media_exists_true_iff. unfold outcome.
    rewrite media_exists_run. cbn [fst]. split; congruence.
  - intros h Hcalls.
    destruct (media_exists_total f (replay now h)) as [Htrue | Hfalse];
      [|exact Hfalse].
    exfalso. apply media_exists_true_iff in Htrue.
    destruct Htrue as (r & Hr & Hf).
    revert Hf. eapply unnamed_file_absent;
      [apply empty_db_well_formed | | exact Hcalls | exact Hr].
    intros r' [].
  - intros Hf t tv s e et q vl d Hkey. split.
    + apply update_series_media_returns; assumption.
    + apply media_exists_true_iff.
      apply update_series_media_stores_filename; assumption.
Qed.

Lemma media_exists_iff_row_witness :
  outcome (media_exists "movie.mkv") (replay steady_clock sample_history) =
    Return false
  /\ outcome (media_exists "movie.mkv")
       (exec (update_series_media steady_clock None None None None None None
                None (Some "movie.mkv") true)
          (replay steady_clock sample_history)) = Return true.
Proof.
  destruct (media_exists_iff_row steady_clock "movie.mkv"
              (replay steady_clock sample_history))
    as (_ & Habsent & Hpresent).
  split.
  - apply Habsent. intros c Hc. cbn in Hc.
    repeat (destruct Hc as [<- | Hc]; [discriminate|]). destruct Hc.
  - apply Hpresent; [discriminate | reflexivity].
Defined.

(* ------------------------------------------------------------------ *)
(** ** The scenario of the specification *)

(** Events "grab" then "download": [get_recent_events 1] returns the
    "download" event alone.  One media row for episode 1x02, then subtitles
    "fr" and "en" fetched for it: [get_medias_series] shows one row with
    languages en, fr and the dirty flag of the fetch. *)
Example scenario :
  outcome (get_recent_events 1) (two_events steady_clock) =
    Return [EventDict.mk "2017-11-05T09:03:01" "download" "b"]
  /\ outcome get_medias_series
       (exec (update_fetched_series_subtitles steady_clock episode_1x02
                ["fr"; "en"] true)
          (one_media steady_clock)) =
     Return [MediaDict.mk "2017-11-05T09:03:00" (Some "Doctor Who")
               (Some 1%Z) (Some 2%Z) (Some "The End of the World")
               (Some "720p") (Some "en") ["en"; "fr"] true].
Proof. split; reflexivity. Qed.

(* ------------------------------------------------------------------ *)
(** ** [get_last_fetched_series] *)

Lemma comprehension_fetched (xs : list SeriesSubtitles.t) (st : state) :
  let body := fun e => series_media <- series_media_of e ;;
                       ret (fetched_dict e series_media) in
  snd (comprehension xs body st) = st
  /\ (forall rows, fst (comprehension xs body st) = Return rows <->
                   map Some rows = map (fetched_row st) xs)
  /\ (fst (comprehension xs body st) = Raise DoesNotExist <->
      Exists (fun e => parent_of st e = None) xs).
Proof.
  intros body.
  assert (Hbody : forall e,
             body e st =
             match parent_of st e with
             | Some m => (Return (fetched_dict e m), st)
             | None => (Raise DoesNotExist, st)
             end).
  { intros e. unfold body, bind, series_media_of, parent_of.
    destruct (find _ _); reflexivity. }
  induction xs as [|e xs (IHst & IHret & IHraise)].
  - cbn. split; [reflexivity|]. split.
    + intros rows. split.
      * intros H. injection H as <-. reflexivity.
      * destruct rows; [reflexivity | discriminate].
    + split; [discriminate | intros H; inversion H].
  - assert (Hrow : fetched_row st e =
                   option_map (fetched_dict e) (parent_of st e))
      by reflexivity.
    cbn [comprehension map]. unfold bind. rewrite Hbody, Hrow.
    destruct (parent_of st e) as [m|] eqn:P; cbn [option_map].
    + destruct (comprehension xs body st) as [[ys | err] st1] eqn:C;
        cbn [fst snd ret] in *.
      * split; [exact IHst|]. split.
        -- intros rows. split.
           ++ intros H. injection H as <-. cbn [map]. f_equal.
              apply IHret. reflexivity.
           ++ destruct rows as [|r rows]; [discriminate|]. cbn [map].
              intros H. injection H as -> H. apply IHret in H.
              congruence.
        -- split; [discriminate|].
           intros H. inversion H as [? ? Hn | ? ? Hex]; subst;
             [congruence|]. apply IHraise in Hex. discriminate.
      * split; [exact IHst|]. split.
        -- intros rows. split; [discriminate|].
           destruct rows as [|r rows]; [discriminate|]. cbn [map].
           intros H. injection H as _ H. apply IHret in H. discriminate.
        -- split.
           ++ intros H. right. apply IHraise. exact H.
           ++ intros H. inversion H as [? ? Hn | ? ? Hex]; subst;
                [congruence|]. apply IHraise in Hex. exact Hex.
    + cbn [fst snd]. split; [reflexivity|]. split.
      * intros rows. split; [discriminate|].
        destruct rows; discriminate.
      * split; [intros _; left; exact P | reflexivity].
Qed.

Lemma newest_subtitles_sorted (st : state) :
  Sorted newest_subtitle_first (newest_subtitles st).
Proof.
  unfold newest_subtitles, order_by_desc.
  apply (sort_sorted
           (fun x y => datetime.leb (SeriesSubtitles.added_timestamp y)
                         (SeriesSubtitles.added_timestamp x))).
  intros x y. apply datetime_leb_total.
Qed.

Lemma newest_subtitles_perm (st : state) :
  Permutation (seriessubtitles st) (newest_subtitles st).
Proof. unfold newest_subtitles, order_by_desc. apply sort_perm. Qed.

Lemma limited_in {A} (n : Z) (l : list A) (x : A) :
  In x (limited n l) -> In x l.
Proof.
  unfold limited. destruct (n <? 0)%Z; [auto|]. intros H.
  rewrite <- (firstn_skipn (Z.to_nat n) l). apply in_or_app. left. exact H.
Qed.

Lemma last_fetched_in (limit : Z) (st : state) (e : SeriesSubtitles.t) :
  In e (last_fetched limit st) -> In e (seriessubtitles st).
Proof.
  unfold last_fetched. intros H. apply limited_in in H.
  eapply Permutation_in;
    [apply Permutation_sym, newest_subtitles_perm | exact H].
Qed.

Lemma get_last_fetched_series_run (limit : Z) (st : state) :
  (int64_min <= limit <= int64_max)%Z ->
  exec (get_last_fetched_series limit) st = st
  /\ (forall rows,
        outcome (get_last_fetched_series limit) st = Return rows <->
        map Some rows = map (fetched_row st) (last_fetched limit st))
  /\ (outcome (get_last_fetched_series limit) st = Raise DoesNotExist <->
      Exists (fun e => parent_of st e = None) (last_fetched limit st)).
Proof.
  intros Hlimit.
  unfold exec, outcome, get_last_fetched_series, bind, select.
  rewrite sql_limit_in_range by exact Hlimit.
  apply (comprehension_fetched (last_fetched limit st) st).
Qed.

Lemma get_last_fetched_series_refused (limit : Z) (st : state) :
  (int64_max < limit)%Z ->
  get_last_fetched_series limit st = (Raise IntegrityError, st).
Proof.
  intros Hlimit. unfold get_last_fetched_series, bind, select.
  rewrite sql_limit_out_of_range by exact Hlimit. reflexivity.
Qed.

(** X1: [get_last_fetched_series] never changes the database.  The rows it
    reads are stored subtitle rows: the stored rows rearranged most recent
    first, of which a limit [0 <= limit < 2^63] keeps the first [limit] and
    a negative limit (down to [-2^63]) keeps all.  For a limit in the signed
    64-bit range it returns, in that order, one mapping per row read, filled
    from the row and from the media row it references, and it raises
    [DoesNotExist] exactly when one of the rows read references no stored
    media row.  A limit of [2^63] or more is refused with
    [IntegrityError]. *)
Theorem get_last_fetched_series_reads (limit : Z) (st : state) :
  exec (get_last_fetched_series limit) st = st
  /\ Permutation (seriessubtitles st) (newest_subtitles st)
  /\ Sorted newest_subtitle_first (newest_subtitles st)
  /\ ((0 <= limit <= int64_max)%Z ->
      last_fetched limit st = firstn (Z.to_nat limit) (newest_subtitles st))
  /\ ((int64_min <= limit < 0)%Z ->
      last_fetched limit st = newest_subtitles st)
  /\ ((int64_min <= limit <= int64_max)%Z ->
      (forall rows,
          outcome (get_last_fetched_series limit) st = Return rows <->
          map Some rows = map (fetched_row st) (last_fetched limit st))
      /\ (outcome (get_last_fetched_series limit) st = Raise DoesNotExist <->
          exists e, In e (last_fetched limit st) /\ parent_of st e = None))
  /\ ((int64_max < limit)%Z ->
      outcome (get_last_fetched_series limit) st = Raise IntegrityError).
Proof.
  split.
  { destruct (Z_le_gt_dec limit int64_max) as [Hle | Hgt].
    - destruct (Z_le_gt_dec int64_min limit) as [Hge | Hlt].
      + apply (get_last_fetched_series_run limit st). lia.
      + unfold exec, get_last_fetched_series, bind, select, sql_limit.
        destruct (in_int64 limit) eqn:E; [|reflexivity].
        apply in_int64_iff in E. lia.
    - unfold exec. rewrite get_last_fetched_series_refused by lia.
      reflexivity. }
  split; [apply newest_subtitles_perm|].
  split; [apply newest_subtitles_sorted|].
  split.
  { intros Hlimit. unfold last_fetched. apply limited_nonnegative. lia. }
  split.
  { intros Hlimit. unfold last_fetched, limited.
    destruct (Z.ltb_spec limit 0); [reflexivity | lia]. }
  split.
  - intros Hlimit.
    destruct (get_last_fetched_series_run limit st Hlimit)
      as (_ & Hret & Hraise).
    split; [exact Hret|]. rewrite Hraise. apply Exists_exists.
  - intros Hlimit. unfold outcome.
    rewrite get_last_fetched_series_refused by exact Hlimit. reflexivity.
Qed.

(* ------------------------------------------------------------------ *)
(** ** Foreign keys over histories *)

Lemma update_series_media_keeps_ids (now : nat -> datetime.t)
    (series_title : option string)
    (tv_db_id season_number episode_number : option Z)
    (episode_title quality video_languages media_filename : option string)
    (dirty : bool) (st : state) (i : Z) :
  In i (map SeriesMedias.id (seriesmedias st)) ->
  In i (map SeriesMedias.id
          (seriesmedias
             (exec (update_series_media now series_title tv_db_id
                      season_number episode_number episode_title quality
                      video_languages media_filename dirty) st))).
Proof.
  intros Hi.
  destruct (update_series_media_cases now series_title tv_db_id season_number
              episode_number episode_title quality video_languages
              media_filename dirty st) as [-> | (f & -> & Hf & Hkey)];
    [exact Hi|].
  unfold exec.
  destruct (find (matches_key
                    (MediaKey.mk tv_db_id season_number episode_number f))
              (seriesmedias st)) as [r|] eqn:E.
  - destruct (update_series_media_found now series_title tv_db_id
                season_number episode_number episode_title quality
                video_languages f dirty Hf Hkey st r E)
      as (st' & -> & Hm & _).
    cbn [snd]. rewrite Hm, map_id_replace. exact Hi.
  - destruct (update_series_media_absent now series_title tv_db_id
                season_number episode_number episode_title quality
                video_languages f dirty Hf Hkey st E)
      as (st' & -> & Hm & _).
    cbn [snd]. rewrite Hm, map_app. apply in_or_app. left. exact Hi.
Qed.

Lemma update_series_media_keeps_subtitles (now : nat -> datetime.t)
    (series_title : option string)
    (tv_db_id season_number episode_number : option Z)
    (episode_title quality video_languages media_filename : option string)
    (dirty : bool) (st : state) :
  seriessubtitles
    (exec (update_series_media now series_title tv_db_id season_number
             episode_number episode_title quality video_languages
             media_filename dirty) st) = seriessubtitles st
  /\ events
       (exec (update_series_media now series_title tv_db_id season_number
                episode_number episode_title quality video_languages
                media_filename dirty) st) = events st.
Proof.
  destruct (update_series_media_cases now series_title tv_db_id season_number
              episode_number episode_title quality video_languages
              media_filename dirty st) as [-> | (f & -> & Hf & Hkey)];
    [auto|].
  destruct (update_series_media_returns now series_title tv_db_id
              season_number episode_number episode_title quality
              video_languages f dirty Hf Hkey st) as (_ & He & Hs).
  auto.
Qed.

Lemma scalar_subquery_stored (q : Where) (st : state) (i : Z) :
  scalar_subquery q st = Some i ->
  In i (map SeriesMedias.id (seriesmedias st)).
Proof.
  unfold scalar_subquery. destruct (find q (seriesmedias st)) as [r|] eqn:E;
    [|discriminate].
  intros H. injection H as <-. apply in_map. apply (find_some _ _ E).
Qed.

Lemma perform_references_valid (now : nat -> datetime.t) (c : call)
    (st : state) :
  well_formed st -> references_valid st ->
  references_valid (perform now c st).
Proof.
  intros Hwf Href media lang.
  destruct c as [t m | t tv s e et q vl mf d | uid langs d]; cbn [perform].
  - unfold exec. rewrite insert_event_run. exact (Href media lang).
  - unfold has_subtitle.
    destruct (update_series_media_keeps_subtitles now t tv s e et q vl mf d st)
      as [-> _].
    intros H. apply update_series_media_keeps_ids. exact (Href media lang H).
  - destruct (update_fetched_post now uid d langs st (wf_pk st Hwf))
      as (Htable & _ & _ & Hhas & _).
    rewrite Hhas, Htable, map_map.
    erewrite map_ext by (intros r; apply id_mark).
    intros [H | [H _]]; [exact (Href media lang H)|].
    apply scalar_subquery_stored in H. exact H.
Qed.

Lemma run_keeps_invariants (now : nat -> datetime.t) (h : list call) :
  forall st,
    well_formed st -> references_valid st ->
    well_formed (run now h st) /\ references_valid (run now h st).
Proof.
  induction h as [|c h IH]; intros st Hwf Href; [auto|].
  apply IH; auto using perform_well_formed, perform_references_valid.
Qed.

Lemma replay_references_valid (now : nat -> datetime.t) (h : list call) :
  references_valid (replay now h).
Proof.
  apply (run_keeps_invariants now h empty_db).
  - apply empty_db_well_formed.
  - intros media lang [].
Qed.

Lemma references_valid_parent (st : state) (e : SeriesSubtitles.t) :
  references_valid st -> In e (seriessubtitles st) ->
  parent_of st e <> None.
Proof.
  intros Href He Hnone.
  assert (Hin : In (SeriesSubtitles.series_media e)
                  (map SeriesMedias.id (seriesmedias st))).
  { apply (Href _ (SeriesSubtitles.language e)).
    unfold has_subtitle. apply in_map_iff. exists e. auto. }
  apply in_map_iff in Hin. destruct Hin as (r & Hid & Hr).
  apply (find_none _ _ Hnone) in Hr. unfold has_id in Hr.
  apply Z.eqb_neq in Hr. contradiction.
Qed.

Lemma all_some {A} (l : list (option A)) :
  Forall (fun o => o <> None) l -> exists rows, map Some rows = l.
Proof.
  induction 1 as [|o l Ho _ (rows & <-)].
  - exists []. reflexivity.
  - destruct o as [a|]; [|contradiction]. exists (a :: rows). reflexivity.
Qed.

(** X2: in every database built by calls on a fresh file, each subtitle row
    references a stored media row, so [get_last_fetched_series] returns
    there for every limit in the signed 64-bit range, without changing the
    database: one mapping per subtitle row read, each filled from the row
    and its media row. *)
Theorem get_last_fetched_series_on_history
    (now : nat -> datetime.t) (h : list call) (limit : Z) :
  (int64_min <= limit <= int64_max)%Z ->
  references_valid (replay now h)
  /\ exists rows,
       get_last_fetched_series limit (replay now h) =
       (Return rows, replay now h)
       /\ map Some rows =
          map (fetched_row (replay now h)) (last_fetched limit (replay now h))
       /\ List.length rows = List.length (last_fetched limit (replay now h)).
Proof.
  intros Hlimit. pose proof (replay_references_valid now h) as Href.
  split; [exact Href|].
  destruct (get_last_fetched_series_run limit (replay now h) Hlimit)
    as (Hst & Hret & _).
  destruct (all_some
              (map (fetched_row (replay now h))
                 (last_fetched limit (replay now h)))) as (rows & Hrows).
  { apply Forall_forall. intros o Ho. apply in_map_iff in Ho.
    destruct Ho as (e & <- & He). apply last_fetched_in in He.
    pose proof (references_valid_parent _ e Href He) as Hp.
    unfold fetched_row. destruct (parent_of (replay now h) e);
      [discriminate | contradiction]. }
  exists rows. split; [|split; [exact Hrows|]].
  - apply Hret in Hrows. unfold outcome, exec in *.
    destruct (get_last_fetched_series limit (replay now h)) as [res st'].
    cbn in *. congruence.
  - rewrite <- (length_map Some rows), Hrows. apply length_map.
Qed.

Lemma get_last_fetched_series_on_history_witness :
  exists rows,
    get_last_fetched_series 1 (replay steady_clock sample_history) =
    (Return rows, replay steady_clock sample_history)
    /\ List.length rows = 1.
Proof.
  destruct (get_last_fetched_series_on_history steady_clock sample_history 1)
    as (_ & rows & Hrun & _ & Hlen).
  - unfold int64_min, int64_max. lia.
  - exists rows. split; [exact Hrun | exact Hlen].
Defined.

Lemma filter_at_most_one {A} (p : A -> bool) (l : list A) (a b : A) :
  List.length (filter p l) <= 1 ->
  In a l -> In b l -> p a = true -> p b = true -> a = b.
Proof.
  intros Hlen Ha Hb Hpa Hpb.
  assert (Ha' : In a (filter p l)) by (apply filter_In; auto).
  assert (Hb' : In b (filter p l)) by (apply filter_In; auto).
  destruct (filter p l) as [|x [|y tl]]; cbn in *; [contradiction | | lia].
  destruct Ha' as [<- | []], Hb' as [<- | []]. reflexivity.
Qed.

(** X3: in every database built by calls on a fresh file the media rows
    have pairwise distinct ids, no two of them share the identity key
    (tv_db_id, season_number, episode_number, media_filename), and none has
    an empty [media_filename]. *)
Theorem history_keeps_media_invariants
    (now : nat -> datetime.t) (h : list call) :
  NoDup (map SeriesMedias.id (seriesmedias (replay now h)))
  /\ (forall r1 r2,
        In r1 (seriesmedias (replay now h)) ->
        In r2 (seriesmedias (replay now h)) ->
        key_of r1 = key_of r2 -> r1 = r2)
  /\ (forall r, In r (seriesmedias (replay now h)) ->
                SeriesMedias.media_filename r <> "").
Proof.
  destruct (replay_well_formed now h) as [Hpk Hkeys _ Hnames].
  split; [exact Hpk|]. split.
  - intros r1 r2 H1 H2 Hkey.
    apply (filter_at_most_one (matches_key (key_of r1))
             (seriesmedias (replay now h))); auto.
    + apply Hkeys.
    + apply matches_key_iff. reflexivity.
    + apply matches_key_iff. symmetry. exact Hkey.
  - unfold filenames_nonempty in Hnames. rewrite Forall_forall in Hnames.
    exact Hnames.
Qed.

(* ------------------------------------------------------------------ *)
(** ** What the writes leave alone *)

(** The first loop of [update_fetched_series_subtitles] only appends
    subtitle rows, each for the first matching media row, a language of the
    call and a pair that was not stored. *)
Lemma languages_loop_appends (now : nat -> datetime.t)
    (uid : SeriesEpisodeUid.t) (i : Z) (langs : list string) :
  uid_bindable uid = true ->
  forall st,
    scalar_subquery (matches_uid uid) st = Some i ->
    exists st' new,
      for_each langs (fetch_language now (select_where_uid uid)) st =
      (Return tt, st')
      /\ seriesmedias st' = seriesmedias st
      /\ events st' = events st
      /\ seriessubtitles st' = seriessubtitles st ++ new
      /\ Forall (fun s => SeriesSubtitles.series_media s = i
                          /\ In (SeriesSubtitles.language s) langs
                          /\ ~ has_subtitle st (SeriesSubtitles.series_media s)
                                 (SeriesSubtitles.language s)) new.
Proof.
  intros Huid. induction langs as [|lang langs IH]; intros st Hsub.
  - exists st, []. cbn. rewrite app_nil_r. auto.
  - destruct (fetch_language_some now uid Huid lang i st Hsub)
      as (st1 & Hrun & Hmed & Hev & Hcases).
    assert (Hsub1 : scalar_subquery (matches_uid uid) st1 = Some i)
      by (unfold scalar_subquery in *; rewrite Hmed; exact Hsub).
    destruct (IH st1 Hsub1) as (st' & new & Hloop & Hmed' & Hev' & Hsubs & Hnew).
    cbn [for_each]. unfold bind at 1. rewrite Hrun.
    destruct Hcases as [[Hin Hsame] | [Hnot (s & Hs & Happ)]].
    + exists st', new. split; [exact Hloop|]. split; [congruence|].
      split; [congruence|]. split; [congruence|].
      eapply Forall_impl; [|exact Hnew]. cbn. intros x (Hx1 & Hx2 & Hx3).
      split; [exact Hx1|]. split; [auto|].
      unfold has_subtitle in *. rewrite Hsame in Hx3. exact Hx3.
    + exists st', (s :: new). split; [exact Hloop|]. split; [congruence|].
      split; [congruence|]. split.
      * rewrite Hsubs, Happ, <- app_assoc. reflexivity.
      * unfold subtitle_pair in Hs. injection Hs as Hs1 Hs2.
        constructor.
        -- rewrite Hs1, Hs2. split; [reflexivity|]. split; [left; reflexivity|].
           exact Hnot.
        -- eapply Forall_impl; [|exact Hnew]. cbn. intros x (Hx1 & Hx2 & Hx3).
           split; [exact Hx1|]. split; [auto|].
           unfold has_subtitle in *. rewrite Happ, map_app in Hx3.
           intros Hx. apply Hx3. apply in_or_app. left. exact Hx.
Qed.

Lemma saves_keep_ids (dirty : bool) (rows table : list SeriesMedias.t) :
  map SeriesMedias.id (saves dirty rows table) = map SeriesMedias.id table.
Proof.
  revert table. induction rows as [|m rows IH]; intros table; [reflexivity|].
  change (saves dirty (m :: rows) table)
    with (saves dirty rows (map (replace_by_id (set_dirty m dirty)) table)).
  rewrite IH. apply map_id_replace.
Qed.

Lemma update_fetched_frame (now : nat -> datetime.t)
    (uid : SeriesEpisodeUid.t) (langs : list string) (dirty : bool)
    (st : state) :
  let st' := exec (update_fetched_series_subtitles now uid langs dirty) st in
  events st' = events st
  /\ map SeriesMedias.id (seriesmedias st') =
     map SeriesMedias.id (seriesmedias st)
  /\ exists new,
       seriessubtitles st' = seriessubtitles st ++ new
       /\ Forall (fun s =>
                    scalar_subquery (matches_uid uid) st =
                    Some (SeriesSubtitles.series_media s)
                    /\ In (SeriesSubtitles.language s) langs
                    /\ ~ has_subtitle st (SeriesSubtitles.series_media s)
                           (SeriesSubtitles.language s)) new.
Proof.
  unfold exec.
  destruct (uid_bindable uid) eqn:Huid.
  2:{ rewrite update_fetched_overflow by exact Huid. cbn [snd].
      split; [reflexivity|]. split; [reflexivity|].
      exists []. rewrite app_nil_r. auto. }
  destruct (scalar_subquery (matches_uid uid) st) as [i|] eqn:Hsub.
  - destruct (languages_loop_appends now uid i langs Huid st Hsub)
      as (st1 & new & Hloop & Hmed & Hev & Hsubs & Hnew).
    destruct (update_fetched_after_loop now uid dirty Huid langs st st1
                Hloop Hmed) as (st' & -> & Hm' & He' & Hs' & _).
    cbn [snd]. split; [congruence|].
    split; [rewrite Hm'; apply saves_keep_ids|].
    exists new. split; [congruence|].
    eapply Forall_impl; [|exact Hnew]. cbn. intros s (-> & H2 & H3). auto.
  - destruct langs as [|lang langs].
    + destruct (update_fetched_after_loop now uid dirty Huid [] st st
                  eq_refl eq_refl) as (st' & -> & Hm' & He' & Hs' & _).
      cbn [snd]. split; [exact He'|].
      split; [rewrite Hm'; apply saves_keep_ids|].
      exists []. rewrite app_nil_r. auto.
    + assert (Hrun : update_fetched_series_subtitles now uid (lang :: langs)
                       dirty st = (Raise IntegrityError, tick st)).
      { change (update_fetched_series_subtitles now uid (lang :: langs)
                  dirty st)
          with ((for_each (lang :: langs)
                   (fetch_language now (select_where_uid uid)) ;;;
                 rows <- execute (select_where_uid uid) ;;
                 for_each rows
                   (fun m => SeriesMedias_save (set_dirty m dirty))) st).
        unfold bind at 1.
        rewrite languages_loop_none by assumption. reflexivity. }
      rewrite Hrun. cbn [snd].
      split; [reflexivity|]. split; [reflexivity|].
      exists []. rewrite app_nil_r. auto.
Qed.

Lemma perform_events (now : nat -> datetime.t) (c : call) (st : state) :
  events (perform now c st) =
  events st ++ match c with
               | Call_insert_event t m => [inserted_event now st t m]
               | _ => []
               end.
Proof.
  destruct c as [t m | t tv s e et q vl mf d | uid langs d]; cbn [perform].
  - unfold exec. rewrite insert_event_run. reflexivity.
  - rewrite app_nil_r. apply update_series_media_keeps_subtitles.
  - rewrite app_nil_r. apply update_fetched_frame.
Qed.

Lemma run_events (now : nat -> datetime.t) (h : list call) (st : state) :
  exists added,
    events (run now h st) = events st ++ added
    /\ map event_payload added = logged h.
Proof.
  revert st. induction h as [|c h IH]; intros st.
  - exists []. cbn. rewrite app_nil_r. auto.
  - destruct (IH (perform now c st)) as (added & Hev & Hlog).
    change (run now (c :: h) st) with (run now h (perform now c st)).
    rewrite Hev, perform_events.
    destruct c as [t m | t tv s e et q vl mf d | uid langs d].
    + exists (inserted_event now st t m :: added).
      rewrite <- app_assoc. split; [reflexivity|]. cbn. rewrite Hlog.
      reflexivity.
    + exists added. rewrite app_nil_r. auto.
    + exists added. rewrite app_nil_r. auto.
Qed.

(** X4: the event log is append-only.  Whatever calls are made, the events
    stored before are still there afterwards, unchanged and in place, and
    the rows added after them are exactly one per [insert_event] call, in
    call order, with that call's type and message. *)
Theorem events_append_only
    (now : nat -> datetime.t) (h : list call) (st : state) :
  exists added,
    events (run now h st) = events st ++ added
    /\ map event_payload added = logged h.
Proof. apply run_events. Qed.

Lemma perform_subtitles (now : nat -> datetime.t) (c : call) (st : state) :
  exists new,
    seriessubtitles (perform now c st) = seriessubtitles st ++ new
    /\ (match c with
        | Call_update_fetched_series_subtitles _ _ _ => True
        | _ => new = []
        end).
Proof.
  destruct c as [t m | t tv s e et q vl mf d | uid langs d]; cbn [perform].
  - exists []. unfold exec. rewrite insert_event_run, app_nil_r. auto.
  - exists []. rewrite app_nil_r. split; [|reflexivity].
    apply update_series_media_keeps_subtitles.
  - destruct (update_fetched_frame now uid langs d st) as (_ & _ & new & H & _).
    exists new. auto.
Qed.

(** X5: subtitle rows are never rewritten or removed.  Whatever calls are
    made, the subtitle rows stored before are still there afterwards,
    unchanged and in place; calls other than
    [update_fetched_series_subtitles] add none; and a call of
    [update_fetched_series_subtitles] adds only rows for the first media row
    matching its episode, with a language of its list, for pairs that were
    not stored. *)
Theorem subtitles_append_only
    (now : nat -> datetime.t) (h : list call) (st : state) :
  (exists added, seriessubtitles (run now h st) = seriessubtitles st ++ added)
  /\ (forall thetype message,
        seriessubtitles (exec (insert_event now thetype message) st) =
        seriessubtitles st)
  /\ (forall series_title tv_db_id season_number episode_number episode_title
             quality video_languages media_filename dirty,
        seriessubtitles
          (exec (update_series_media now series_title tv_db_id season_number
                   episode_number episode_title quality video_languages
                   media_filename dirty) st) = seriessubtitles st)
  /\ (forall uid langs dirty,
        exists new,
          seriessubtitles
            (exec (update_fetched_series_subtitles now uid langs dirty) st) =
          seriessubtitles st ++ new
          /\ Forall (fun s =>
                       scalar_subquery (matches_uid uid) st =
                       Some (SeriesSubtitles.series_media s)
                       /\ In (SeriesSubtitles.language s) langs
                       /\ ~ has_subtitle st (SeriesSubtitles.series_media s)
                              (SeriesSubtitles.language s)) new).
Proof.
  split; [|split; [|split]].
  - revert st. induction h as [|c h IH]; intros st.
    + exists []. cbn. rewrite app_nil_r. reflexivity.
    + destruct (IH (perform now c st)) as (added & Hsubs).
      destruct (perform_subtitles now c st) as (new & Hnew & _).
      exists (new ++ added).
      change (run now (c :: h) st) with (run now h (perform now c st)).
      rewrite Hsubs, Hnew, app_assoc. reflexivity.
  - intros t m. unfold exec. rewrite insert_event_run. reflexivity.
  - intros. apply update_series_media_keeps_subtitles.
  - intros uid langs d.
    destruct (update_fetched_frame now uid langs d st) as (_ & _ & H).
    exact H.
Qed.

(* ------------------------------------------------------------------ *)
(** ** Find-or-create *)

Lemma find_app_new {A} (p : A -> bool) (l : list A) (x : A) :
  find p l = None -> p x = true -> find p (l ++ [x]) = Some x.
Proof.
  induction l as [|y l IH]; cbn; intros Hnone Hx.
  - rewrite Hx. reflexivity.
  - destruct (p y); [discriminate | auto].
Qed.

Lemma count_key_zero (k : MediaKey.t) (st : state) :
  count_key k st = 0 <-> find (matches_key k) (seriesmedias st) = None.
Proof.
  unfold count_key. rewrite find_filter.
  destruct (filter (matches_key k) (seriesmedias st)); cbn;
    split; congruence.
Qed.

Lemma key_of_created (now : nat -> datetime.t) (st : state) (k : MediaKey.t) :
  key_of (created_media now st k) = k.
Proof. destruct k; reflexivity. Qed.

(** X6: with a key whose integers fit the signed 64-bit range,
    [_get_or_create] on [SeriesMedias] returns a row with the key asked for,
    stored in the table, and its flag tells whether the row was created:
    true exactly when no row had the key.  A found row leaves the database
    as it was; a created row is appended with the column defaults, events
    and subtitles untouched.  Asking again finds that same row and creates
    nothing.  With a key that has an integer outside that range the call
    raises [OverflowError] and leaves the database as it was. *)
Theorem get_or_create_media
    (now : nat -> datetime.t) (k : MediaKey.t) (st : state) :
  (key_bindable k = true ->
   exists r st1,
     @_get_or_create _ _ (SeriesMedias_Model now) k st =
     (Return (r, Nat.eqb (count_key k st) 0), st1)
     /\ key_of r = k
     /\ In r (seriesmedias st1)
     /\ (count_key k st <> 0 -> st1 = st)
     /\ (count_key k st = 0 ->
         r = created_media now st k
         /\ seriesmedias st1 = seriesmedias st ++ [r]
         /\ events st1 = events st
         /\ seriessubtitles st1 = seriessubtitles st)
     /\ @_get_or_create _ _ (SeriesMedias_Model now) k st1 =
        (Return (r, false), st1))
  /\ (key_bindable k = false ->
      @_get_or_create _ _ (SeriesMedias_Model now) k st =
      (Raise OverflowError, st)).
Proof.
  unfold _get_or_create. cbn [get create SeriesMedias_Model]. split.
  - intros Hk. rewrite (SeriesMedias_get_run now k st Hk).
    destruct (find (matches_key k) (seriesmedias st)) as [r|] eqn:E.
    + assert (Hcount : count_key k st <> 0)
        by (rewrite count_key_zero; congruence).
      apply Nat.eqb_neq in Hcount. rewrite Hcount.
      exists r, st. rewrite (SeriesMedias_get_run now k st Hk), E.
      split; [reflexivity|].
      destruct (find_some _ _ E) as [Hin Hm]. apply matches_key_iff in Hm.
      apply Nat.eqb_neq in Hcount. repeat split; auto; contradiction.
    + assert (Hcount : count_key k st = 0) by (apply count_key_zero, E).
      rewrite Hcount. cbn [Nat.eqb].
      destruct (SeriesMedias_create_run now k st Hk)
        as (st1 & Hc & Hm & He & Hs & _).
      unfold bind at 1. rewrite Hc. unfold ret.
      exists (created_media now st k), st1.
      split; [reflexivity|]. split; [apply key_of_created|].
      split; [rewrite Hm; apply in_or_app; right; left; reflexivity|].
      split; [congruence|]. split; [auto|].
      rewrite (SeriesMedias_get_run now k st1 Hk), Hm.
      rewrite find_app_new; [reflexivity | exact E |].
      apply matches_key_iff, key_of_created.
  - intros Hk. rewrite SeriesMedias_get_overflow by exact Hk. reflexivity.
Qed.

(** X7: with a non-empty file name and a key whose integers fit the signed
    64-bit range, [update_series_media] adds a media row exactly when no row
    has the key.  The new row goes last, takes an id above every stored id,
    the clock reading as [added_timestamp] and the call's arguments as
    fields, and leaves the stored rows as they were.  When a row has the
    key, the table keeps its length and its ids.  Events and subtitles are
    never touched. *)
Theorem update_series_media_creates_iff_absent
    (now : nat -> datetime.t)
    (series_title : option string)
    (tv_db_id season_number episode_number : option Z)
    (episode_title quality video_languages : option string)
    (media_filename : string) (dirty : bool) (st : state) :
  media_filename <> "" ->
  key_bindable
    (MediaKey.mk tv_db_id season_number episode_number media_filename)
  = true ->
  let k := MediaKey.mk tv_db_id season_number episode_number media_filename in
  let st' :=
    exec (update_series_media now series_title tv_db_id season_number
            episode_number episode_title quality video_languages
            (Some media_filename) dirty) st in
  (count_key k st = 0 ->
   seriesmedias st' =
   seriesmedias st ++
   [SeriesMedias.mk (next_id (map SeriesMedias.id (seriesmedias st)))
      tv_db_id season_number episode_number (now (ticks st))
      series_title episode_title quality video_languages dirty
      media_filename]
   /\ Forall (fun r => (SeriesMedias.id r
                        < next_id (map SeriesMedias.id (seriesmedias st)))%Z)
        (seriesmedias st))
  /\ (count_key k st <> 0 ->
      List.length (seriesmedias st') = List.length (seriesmedias st)
      /\ map SeriesMedias.id (seriesmedias st') =
         map SeriesMedias.id (seriesmedias st))
  /\ events st' = events st
  /\ seriessubtitles st' = seriessubtitles st.
Proof.
  intros Hf Hkey k st'. unfold st', exec.
  destruct (find (matches_key k) (seriesmedias st)) as [r|] eqn:E.
  - destruct (update_series_media_found now series_title tv_db_id
                season_number episode_number episode_title quality
                video_languages media_filename dirty Hf Hkey st r E)
      as (st1 & -> & Hm & He & Hs & _).
    cbn [snd]. split.
    + intros H0. apply count_key_zero in H0. congruence.
    + split; [|auto]. intros _. rewrite Hm, length_map, map_id_replace. auto.
  - destruct (update_series_media_absent now series_title tv_db_id
                season_number episode_number episode_title quality
                video_languages media_filename dirty Hf Hkey st E)
      as (st1 & -> & Hm & He & Hs & _).
    cbn [snd]. split.
    + intros _. split; [exact Hm|]. apply Forall_forall. intros r Hr.
      apply next_id_above. apply in_map. exact Hr.
    + split; [|auto]. intros Hne. exfalso. apply Hne.
      apply count_key_zero. exact E.
Qed.

Lemma update_series_media_creates_iff_absent_witness :
  seriesmedias
    (exec (update_series_media steady_clock None (Some 7%Z) None None None
             None None (Some "pilot.mkv") false)
       (one_media steady_clock)) =
  [ep2_row steady_clock;
   SeriesMedias.mk 2 (Some 7%Z) None None (steady_clock 1) None None None None
     false "pilot.mkv"].
Proof.
  destruct (update_series_media_creates_iff_absent steady_clock None
              (Some 7%Z) None None None None None "pilot.mkv" false
              (one_media steady_clock)) as (Hnew & _).
  - discriminate.
  - reflexivity.
  - destruct Hnew as (Htable & _); [reflexivity|]. exact Htable.
Defined.

(** X16: with a non-empty file name, [update_series_media] returns when
    each of [tv_db_id], [season_number] and [episode_number] is [None] or an
    integer of the signed 64-bit range, and otherwise raises
    [OverflowError] on its first statement, leaving the database as it
    was. *)
Theorem update_series_media_key_range
    (now : nat -> datetime.t)
    (series_title : option string)
    (tv_db_id season_number episode_number : option Z)
    (episode_title quality video_languages : option string)
    (media_filename : string) (dirty : bool) (st : state) :
  media_filename <> "" ->
  let k := MediaKey.mk tv_db_id season_number episode_number media_filename in
  let call :=
    update_series_media now series_title tv_db_id season_number
      episode_number episode_title quality video_languages
      (Some media_filename) dirty in
  (key_bindable k = true <->
   forall z, In (Some z) [tv_db_id; season_number; episode_number] ->
             (- 2 ^ 63 <= z <= 2 ^ 63 - 1)%Z)
  /\ (key_bindable k = true -> outcome call st = Return tt)
  /\ (key_bindable k = false -> call st = (Raise OverflowError, st)).
Proof.
  intros Hf k call. split; [|split].
  - unfold key_bindable, k. cbn [MediaKey.tv_db_id MediaKey.season_number
                                  MediaKey.episode_number].
    rewrite !andb_true_iff, !bindable_iff. fold int64_min int64_max. split.
    + intros [[H1 H2] H3] z [E | [E | [E | []]]]; auto.
    + intros H. split; [split|]; intros z E; apply H; rewrite E; cbn; auto.
  - intros Hkey.
    apply (update_series_media_returns now series_title tv_db_id
             season_number episode_number episode_title quality
             video_languages media_filename dirty Hf Hkey st).
  - intros Hkey. apply update_series_media_overflow; assumption.
Qed.

Lemma update_series_media_key_range_witness :
  update_series_media steady_clock None (Some (2 ^ 63)%Z) (Some 1%Z)
    (Some 2%Z) None None None (Some "ep2.mkv") true (one_media steady_clock) =
  (Raise OverflowError, one_media steady_clock).
Proof.
  apply (update_series_media_key_range steady_clock None (Some (2 ^ 63)%Z)
           (Some 1%Z) (Some 2%Z) None None None "ep2.mkv" true
           (one_media steady_clock)).
  - discriminate.
  - reflexivity.
Defined.

(* ------------------------------------------------------------------ *)
(** ** The limit of [get_recent_events] *)

(** X8: [get_recent_events] with a negative limit (down to [-2^63]), or a
    limit below [2^63] that is not below the number of stored events,
    returns every event, most recent first; with limit 0 it returns
    nothing; a limit of [2^63] or more is refused with [IntegrityError].
    The database is unchanged in each case. *)
Theorem get_recent_events_limit_edges (limit : Z) (st : state) :
  ((int64_min <= limit < 0)%Z
   \/ (Z.of_nat (List.length (events st)) <= limit <= int64_max)%Z ->
   exists ordered,
     Permutation (events st) ordered
     /\ Sorted recent_first ordered
     /\ get_recent_events limit st = (Return (map event_dict ordered), st))
  /\ (limit = 0%Z -> get_recent_events limit st = (Return [], st))
  /\ ((int64_max < limit)%Z ->
      get_recent_events limit st = (Raise IntegrityError, st)).
Proof.
  split; [|split].
  - intros Hlimit.
    exists (order_by_desc datetime.leb Events.timestamp (events st)).
    split; [apply sort_perm|]. split; [apply order_by_desc_events_sorted|].
    rewrite get_recent_events_run
      by (unfold int64_min, int64_max in *; lia).
    unfold limited.
    destruct (Z.ltb_spec limit 0) as [Hneg | Hpos]; [reflexivity|].
    destruct Hlimit as [Hneg | Hbig]; [lia|].
    rewrite firstn_all2; [reflexivity|].
    unfold order_by_desc.
    rewrite <- (Permutation_length (sort_perm _ (events st))). lia.
  - intros ->. reflexivity.
  - apply get_recent_events_refused.
Qed.

Lemma get_recent_events_limit_edges_witness :
  (exists ordered,
      Permutation (events (two_events steady_clock)) ordered
      /\ Sorted recent_first ordered
      /\ get_recent_events (-5) (two_events steady_clock) =
         (Return (map event_dict ordered), two_events steady_clock))
  /\ get_recent_events 0 (two_events steady_clock) =
     (Return [], two_events steady_clock)
  /\ get_recent_events (2 ^ 63) (two_events steady_clock) =
     (Raise IntegrityError, two_events steady_clock).
Proof.
  split; [|split].
  - apply (get_recent_events_limit_edges (-5) (two_events steady_clock)).
    left. unfold int64_min. lia.
  - apply (get_recent_events_limit_edges 0 (two_events steady_clock)).
    reflexivity.
  - apply (get_recent_events_limit_edges (2 ^ 63) (two_events steady_clock)).
    unfold int64_max. lia.
Defined.

(* ------------------------------------------------------------------ *)
(** ** [update_fetched_series_subtitles]: failure and repetition *)

Lemma scalar_subquery_none (q : Where) (st : state) :
  scalar_subquery q st = None <->
  forall r, In r (seriesmedias st) -> q r = false.
Proof.
  unfold scalar_subquery. split.
  - destruct (find q (seriesmedias st)) eqn:E; [discriminate|].
    intros _ r Hr. exact (find_none _ _ E r Hr).
  - intros H. destruct (find q (seriesmedias st)) as [r|] eqn:E;
      [|reflexivity].
    destruct (find_some _ _ E) as [Hr Hq]. rewrite (H r Hr) in Hq.
    discriminate.
Qed.

Lemma mark_mark (uid : SeriesEpisodeUid.t) (dirty : bool)
    (r : SeriesMedias.t) :
  mark uid dirty (mark uid dirty r) = mark uid dirty r.
Proof.
  unfold mark at 2. destruct (matches_uid uid r) eqn:E.
  - unfold mark. rewrite matches_uid_set_dirty, E. reflexivity.
  - unfold mark. rewrite E. reflexivity.
Qed.

(** X9: on a table with unique ids.  With a uid whose integers fit the
    signed 64-bit range, [update_fetched_series_subtitles] raises
    [IntegrityError] (from the refused INSERT) exactly when no media row
    matches the episode and the language list is not empty, and returns in
    every other case.  With a uid that has an integer outside that range it
    raises [OverflowError] whatever the language list, and the database is
    as it was.  Whenever the call does not return, no row of any table has
    changed. *)
Theorem update_fetched_raises_iff_no_media
    (now : nat -> datetime.t) (uid : SeriesEpisodeUid.t)
    (langs : list string) (dirty : bool) (st : state) :
  pk_unique st ->
  let call := update_fetched_series_subtitles now uid langs dirty in
  (uid_bindable uid = true ->
   (outcome call st = Raise IntegrityError <->
    (forall r, In r (seriesmedias st) -> matches_uid uid r = false)
    /\ langs <> [])
   /\ (outcome call st = Raise IntegrityError \/ outcome call st = Return tt))
  /\ (uid_bindable uid = false ->
      outcome call st = Raise OverflowError /\ exec call st = st)
  /\ (outcome call st <> Return tt ->
      events (exec call st) = events st
      /\ seriesmedias (exec call st) = seriesmedias st
      /\ seriessubtitles (exec call st) = seriessubtitles st).
Proof.
  intros Hpk call.
  destruct (update_fetched_post now uid dirty langs st Hpk)
    as (Htable & Hev & _ & _ & Hout).
  fold call in Htable, Hev, Hout.
  destruct (update_fetched_frame now uid langs dirty st)
    as (_ & _ & new & Hsubs & Hnew).
  fold call in Hsubs.
  destruct (uid_bindable uid) eqn:Huid.
  - split; [|split; [discriminate|]].
    + intros _. rewrite Hout, <- scalar_subquery_none.
      destruct (scalar_subquery (matches_uid uid) st) as [i|] eqn:Hsub.
      * split; [|auto].
        split; [discriminate | intros [H _]; discriminate].
      * destruct langs as [|lang langs].
        -- split; [|auto].
           split; [discriminate | intros [_ H]; contradiction].
        -- split; [|auto].
           split; [intros _; split; [reflexivity | discriminate]
                  | reflexivity].
    + intros Hne. rewrite Hout in Hne.
      destruct (scalar_subquery (matches_uid uid) st) as [i|] eqn:Hsub;
        [destruct langs; contradiction|].
      destruct langs as [|lang langs]; [contradiction|].
      split; [exact Hev|]. split.
      * rewrite Htable. apply map_mark_none.
        unfold scalar_subquery in Hsub.
        destruct (find (matches_uid uid) (seriesmedias st));
          [discriminate | reflexivity].
      * destruct new as [|s new]; [rewrite Hsubs; apply app_nil_r|].
        inversion Hnew as [|? ? (Hs & _) _]. discriminate.
  - assert (Hrun : call st = (Raise OverflowError, st))
      by (apply update_fetched_overflow, Huid).
    unfold outcome, exec. rewrite Hrun. cbn [fst snd].
    split; [discriminate|]. split; auto.
Qed.

Lemma update_fetched_raises_iff_no_media_witness :
  outcome (update_fetched_series_subtitles steady_clock
             (SeriesEpisodeUid.mk (Some 100%Z) (Some 1%Z) (Some 3%Z))
             ["en"] true) (one_media steady_clock) = Raise IntegrityError
  /\ seriessubtitles
       (exec (update_fetched_series_subtitles steady_clock
                (SeriesEpisodeUid.mk (Some 100%Z) (Some 1%Z) (Some 3%Z))
                ["en"] true) (one_media steady_clock)) =
     seriessubtitles (one_media steady_clock).
Proof.
  destruct (update_fetched_raises_iff_no_media steady_clock
              (SeriesEpisodeUid.mk (Some 100%Z) (Some 1%Z) (Some 3%Z))
              ["en"] true (one_media steady_clock))
    as (Hin & _ & Hsame).
  - unfold pk_unique. cbn. repeat constructor. intros [].
  - destruct (Hin eq_refl) as (Hiff & _).
    assert (Hraise : outcome
                       (update_fetched_series_subtitles steady_clock
                          (SeriesEpisodeUid.mk (Some 100%Z) (Some 1%Z)
                             (Some 3%Z)) ["en"] true)
                       (one_media steady_clock) = Raise IntegrityError).
    { apply Hiff. split; [|discriminate].
      intros r [<- | []]. reflexivity. }
    split; [exact Hraise|]. apply Hsame. rewrite Hraise. discriminate.
Defined.

(** X10: repeating a call of [update_fetched_series_subtitles] changes no
    row: on a table with unique ids, the second of two identical calls ends
    as the first did and leaves the three tables as the first left them. *)
Theorem update_fetched_repeat
    (now : nat -> datetime.t) (uid : SeriesEpisodeUid.t)
    (langs : list string) (dirty : bool) (st : state) :
  pk_unique st ->
  let call := update_fetched_series_subtitles now uid langs dirty in
  outcome call (exec call st) = outcome call st
  /\ events (exec call (exec call st)) = events (exec call st)
  /\ seriesmedias (exec call (exec call st)) = seriesmedias (exec call st)
  /\ seriessubtitles (exec call (exec call st)) =
     seriessubtitles (exec call st).
Proof.
  intros Hpk call.
  destruct (update_fetched_post now uid dirty langs st Hpk)
    as (Htable & _ & _ & Hhas & Hout).
  fold call in Htable, Hhas, Hout.
  assert (Hpk1 : pk_unique (exec call st))
    by (apply pk_unique_after_fetch, Hpk).
  assert (Hsub1 : scalar_subquery (matches_uid uid) (exec call st) =
                  scalar_subquery (matches_uid uid) st)
    by (apply scalar_subquery_after_fetch, Hpk).
  destruct (update_fetched_post now uid dirty langs (exec call st) Hpk1)
    as (Htable2 & Hev2 & _ & _ & Hout2).
  fold call in Htable2, Hev2, Hout2.
  destruct (update_fetched_frame now uid langs dirty (exec call st))
    as (_ & _ & new & Hsubs & Hnew).
  fold call in Hsubs.
  split; [rewrite Hout2, Hout, Hsub1; reflexivity|].
  split; [exact Hev2|]. split.
  - rewrite Htable2, Htable, map_map. apply map_ext. intros r.
    apply mark_mark.
  - destruct new as [|s new]; [rewrite Hsubs; apply app_nil_r|].
    exfalso. inversion Hnew as [|? ? (Hs & Hlang & Hnot) _]. subst.
    apply Hnot. apply Hhas. right. rewrite <- Hsub1. auto.
Qed.

Lemma update_fetched_repeat_witness :
  seriessubtitles
    (exec (update_fetched_series_subtitles steady_clock episode_1x02
             ["en"; "fr"] false)
       (exec (update_fetched_series_subtitles steady_clock episode_1x02
                ["en"; "fr"] false) (two_files steady_clock))) =
  seriessubtitles
    (exec (update_fetched_series_subtitles steady_clock episode_1x02
             ["en"; "fr"] false) (two_files steady_clock)).
Proof.
  destruct (update_fetched_repeat steady_clock episode_1x02 ["en"; "fr"]
              false (two_files steady_clock)) as (_ & _ & _ & Hsubs).
  - unfold pk_unique. cbn. repeat constructor; cbn; intuition discriminate.
  - exact Hsubs.
Defined.

(* ------------------------------------------------------------------ *)
(** ** Media rows are kept *)

Lemma perform_keeps_row (now : nat -> datetime.t) (c : call) (st : state)
    (r : SeriesMedias.t) :
  pk_unique st -> In r (seriesmedias st) ->
  exists r',
    In r' (seriesmedias (perform now c st))
    /\ SeriesMedias.id r' = SeriesMedias.id r
    /\ key_of r' = key_of r
    /\ SeriesMedias.added_timestamp r' = SeriesMedias.added_timestamp r.
Proof.
  intros Hpk Hr.
  destruct c as [t m | t tv s e et q vl mf d | uid langs d]; cbn [perform].
  - exists r. unfold exec. rewrite insert_event_run. auto.
  - destruct (update_series_media_cases now t tv s e et q vl mf d st)
      as [-> | (f & -> & Hf & Hkey)]; [exists r; auto|].
    unfold exec.
    destruct (find (matches_key (MediaKey.mk tv s e f)) (seriesmedias st))
      as [r0|] eqn:E.
    2:{ destruct (update_series_media_absent now t tv s e et q vl f d Hf Hkey
                    st E) as (st' & -> & Hm & _).
        cbn [snd]. rewrite Hm. exists r.
        split; [apply in_or_app; left; exact Hr | auto]. }
    destruct (update_series_media_found now t tv s e et q vl f d Hf Hkey
                st r0 E) as (st' & -> & Htable & _).
    cbn [snd]. rewrite Htable.
    + destruct (find_some _ _ E) as [Hr0 Hm]. apply matches_key_iff in Hm.
      exists (replace_by_id (assign_fields r0 t et q vl d f) r).
      split; [apply in_map; exact Hr|].
      unfold replace_by_id. cbn [SeriesMedias.id assign_fields].
      destruct (Z.eqb_spec (SeriesMedias.id r) (SeriesMedias.id r0)) as [Eid|Eid];
        [|auto].
      assert (r = r0) by (eapply NoDup_map_eq; eauto). subst r0.
      split; [reflexivity|]. split; [|reflexivity].
      rewrite Hm. unfold key_of in *. cbn. injection Hm as -> -> -> _.
      reflexivity.
  - destruct (update_fetched_post now uid d langs st Hpk) as (Htable & _).
    exists (mark uid d r). rewrite Htable.
    split; [apply in_map; exact Hr|].
    split; [apply id_mark|]. split; [apply key_of_mark|].
    unfold mark. destruct (matches_uid uid r); reflexivity.
Qed.

Lemma run_keeps_row
    (now : nat -> datetime.t) (h : list call) (st : state)
    (r : SeriesMedias.t) :
  well_formed st ->
  In r (seriesmedias st) ->
  exists r',
    In r' (seriesmedias (run now h st))
    /\ SeriesMedias.id r' = SeriesMedias.id r
    /\ key_of r' = key_of r
    /\ SeriesMedias.added_timestamp r' = SeriesMedias.added_timestamp r.
Proof.
  revert st r. induction h as [|c h IH]; intros st r Hwf Hr.
  - exists r. auto.
  - destruct (perform_keeps_row now c st r (wf_pk st Hwf) Hr)
      as (r1 & Hr1 & Hid1 & Hkey1 & Hts1).
    destruct (IH (perform now c st) r1 (perform_well_formed now c st Hwf) Hr1)
      as (r' & Hr' & Hid & Hkey & Hts).
    exists r'. split; [exact Hr'|]. repeat split; congruence.
Qed.

(** X11: media rows are never deleted and never change identity.  From a
    well-formed database, after any calls, every media row stored before is
    still stored under the same id, with the same identity key and the same
    [added_timestamp]. *)
Theorem media_rows_persist
    (now : nat -> datetime.t) (h : list call) (st : state)
    (r : SeriesMedias.t) :
  well_formed st ->
  In r (seriesmedias st) ->
  exists r',
    In r' (seriesmedias (run now h st))
    /\ SeriesMedias.id r' = SeriesMedias.id r
    /\ key_of r' = key_of r
    /\ SeriesMedias.added_timestamp r' = SeriesMedias.added_timestamp r.
Proof. apply run_keeps_row. Qed.

Lemma media_rows_persist_witness :
  exists r',
    In r' (seriesmedias (run steady_clock sample_history
                           (one_media steady_clock)))
    /\ SeriesMedias.id r' = 1%Z
    /\ key_of r' = MediaKey.mk (Some 100%Z) (Some 1%Z) (Some 2%Z) "ep2.mkv"
    /\ SeriesMedias.added_timestamp r' = steady_clock 0.
Proof.
  apply (media_rows_persist steady_clock sample_history
           (one_media steady_clock) (ep2_row steady_clock)).
  - apply (perform_well_formed steady_clock
             (Call_update_series_media (Some "Doctor Who") (Some 100%Z)
                (Some 1%Z) (Some 2%Z) (Some "The End of the World")
                (Some "720p") (Some "en") (Some "ep2.mkv") true) empty_db).
    apply empty_db_well_formed.
  - left. reflexivity.
Defined.

(* ------------------------------------------------------------------ *)
(** ** The handle *)

(** X12: the [database] property makes the handle once and then returns
    that same handle without changing anything.  [init] never replaces a
    handle that exists, whatever path it is given; while no handle exists,
    the first access after [init] opens the path [init] was given, also
    when [init] raised because the reset failed. *)
Theorem database_handle_made_once (p : Lifecycle.process) :
  Lifecycle.database (snd (Lifecycle.database p)) =
  (fst (Lifecycle.database p), snd (Lifecycle.database p))
  /\ (forall h path reset_db,
        Lifecycle.database_field (Lifecycle.self p) = Some h ->
        fst (Lifecycle.database (snd (Lifecycle.init path reset_db p))) = h)
  /\ (forall path reset_db,
        Lifecycle.database_field (Lifecycle.self p) = None ->
        Lifecycle.handle_path
          (fst (Lifecycle.database (snd (Lifecycle.init path reset_db p)))) =
        Some path).
Proof.
  split; [|split].
  - unfold Lifecycle.database.
    destruct (Lifecycle.database_field (Lifecycle.self p)) as [h|] eqn:E;
      cbn [fst snd].
    + rewrite E. reflexivity.
    + cbn. reflexivity.
  - intros h path reset_db Hh. unfold Lifecycle.init.
    destruct reset_db.
    + destruct (Lifecycle.unlink path (Lifecycle.fs p)) as [[u|err] fs'];
        unfold Lifecycle.database; cbn; rewrite Hh; reflexivity.
    + unfold Lifecycle.database; cbn; rewrite Hh; reflexivity.
  - intros path reset_db Hnone. unfold Lifecycle.init.
    destruct reset_db.
    + destruct (Lifecycle.unlink path (Lifecycle.fs p)) as [[u|err] fs'];
        unfold Lifecycle.database; cbn; rewrite Hnone; reflexivity.
    + unfold Lifecycle.database; cbn; rewrite Hnone; reflexivity.
Qed.

Lemma database_handle_made_once_witness :
  fst (Lifecycle.database
         (snd (Lifecycle.init "/tmp/other.db" true
                 (snd (Lifecycle.database
                         (snd (Lifecycle.init "/var/lib/dopplerr/sqlite.db"
                                 false
                                 (Lifecycle.mkProcess Lifecycle.new
                                    fs_with_db)))))))) =
  Lifecycle.mkHandle (Some "/var/lib/dopplerr/sqlite.db").
Proof.
  destruct (database_handle_made_once
              (snd (Lifecycle.database
                      (snd (Lifecycle.init "/var/lib/dopplerr/sqlite.db" false
                              (Lifecycle.mkProcess Lifecycle.new
                                 fs_with_db))))))
    as (_ & Hkept & _).
  apply Hkept. reflexivity.
Defined.

(* ------------------------------------------------------------------ *)
(** ** What [get_medias_series] shows *)

Lemma subtitle_languages_iff (st : state) (med : SeriesMedias.t)
    (lang : string) :
  In lang (MediaDict.subtitle_languages (media_dict st med)) <->
  has_subtitle st (SeriesMedias.id med) lang.
Proof.
  unfold media_dict, sorted, has_subtitle, subtitles.
  cbn [MediaDict.subtitle_languages].
  split.
  - intros H.
    apply (Permutation_in _ (Permutation_sym (sort_perm String.leb _))) in H.
    apply in_map_iff in H. destruct H as (s & <- & Hs).
    apply filter_In in Hs. destruct Hs as [Hs Hid]. apply Z.eqb_eq in Hid.
    apply in_map_iff. exists s. unfold subtitle_pair. rewrite Hid. auto.
  - intros H. apply in_map_iff in H. destruct H as (s & Hpair & Hs).
    unfold subtitle_pair in Hpair. injection Hpair as Hid <-.
    apply (Permutation_in _ (sort_perm String.leb _)).
    apply in_map. apply filter_In. split; [exact Hs|].
    apply Z.eqb_eq. exact Hid.
Qed.

(** X13: while the table holds at most 100 media rows, [get_medias_series]
    drops none: its result is built row by row from a reordering of the whole
    table.  The languages a row shows are exactly those of the stored
    subtitle rows that reference it; after
    [update_fetched_series_subtitles] (on a table with unique ids) a row
    shows what it showed before, plus, for the first row matching the
    episode, the languages of the call. *)
Theorem get_medias_series_shows_all
    (now : nat -> datetime.t) (st : state) :
  (List.length (seriesmedias st) <= 100 ->
   exists selected,
     Permutation (seriesmedias st) selected
     /\ get_medias_series st = (Return (map (media_dict st) selected), st))
  /\ (forall med lang,
        In lang (MediaDict.subtitle_languages (media_dict st med)) <->
        has_subtitle st (SeriesMedias.id med) lang)
  /\ (pk_unique st ->
      forall uid langs dirty med lang,
        In lang
          (MediaDict.subtitle_languages
             (media_dict
                (exec (update_fetched_series_subtitles now uid langs dirty) st)
                med)) <->
        In lang (MediaDict.subtitle_languages (media_dict st med))
        \/ (scalar_subquery (matches_uid uid) st = Some (SeriesMedias.id med)
            /\ In lang langs)).
Proof.
  split; [|split].
  - intros Hlen.
    exists (order_by_desc text_leb SeriesMedias.series_title (seriesmedias st)).
    split; [apply sort_perm|].
    rewrite get_medias_series_run.
    rewrite firstn_all2; [reflexivity|].
    unfold order_by_desc.
    rewrite <- (Permutation_length (sort_perm _ (seriesmedias st))).
    exact Hlen.
  - apply subtitle_languages_iff.
  - intros Hpk uid langs dirty med lang.
    destruct (update_fetched_post now uid dirty langs st Hpk)
      as (_ & _ & _ & Hhas & _).
    rewrite !subtitle_languages_iff. apply Hhas.
Qed.

Lemma get_medias_series_shows_all_witness :
  (exists selected,
      Permutation (seriesmedias (two_files steady_clock)) selected
      /\ get_medias_series (two_files steady_clock) =
         (Return (map (media_dict (two_files steady_clock)) selected),
          two_files steady_clock))
  /\ (In "fr"
        (MediaDict.subtitle_languages
           (media_dict
              (exec (update_fetched_series_subtitles steady_clock
                       episode_1x02 ["en"; "fr"] true)
                 (two_files steady_clock))
              (ep2_row steady_clock)))).
Proof.
  destruct (get_medias_series_shows_all steady_clock (two_files steady_clock))
    as (Hall & _ & Hafter).
  split.
  - apply Hall. cbn. lia.
  - apply Hafter.
    + unfold pk_unique. cbn. repeat constructor; cbn; intuition discriminate.
    + right. split; [reflexivity|]. right. left. reflexivity.
Defined.

(* ------------------------------------------------------------------ *)
(** ** Writes seen through the reads *)

(** X14: a file name that [media_exists] reports stays reported.  From a
    well-formed database where [media_exists f] is true, it is true after
    any further calls. *)
Theorem media_exists_stays_true
    (now : nat -> datetime.t) (f : string) (h : list call) (st : state) :
  well_formed st ->
  outcome (media_exists f) st = Return true ->
  outcome (media_exists f) (run now h st) = Return true.
Proof.
  intros Hwf Htrue. apply media_exists_true_iff in Htrue.
  destruct Htrue as (r & Hr & Hf).
  destruct (run_keeps_row now h st r Hwf Hr) as (r' & Hr' & _ & Hkey & _).
  apply media_exists_true_iff. exists r'. split; [exact Hr'|].
  unfold key_of in Hkey. injection Hkey as _ _ _ Hname. congruence.
Qed.

Lemma media_exists_stays_true_witness :
  outcome (media_exists "ep2.mkv")
    (run steady_clock sample_history (one_media steady_clock)) = Return true.
Proof.
  apply (media_exists_stays_true steady_clock "ep2.mkv" sample_history
           (one_media steady_clock)).
  - apply (perform_well_formed steady_clock
             (Call_update_series_media (Some "Doctor Who") (Some 100%Z)
                (Some 1%Z) (Some 2%Z) (Some "The End of the World")
                (Some "720p") (Some "en") (Some "ep2.mkv") true) empty_db).
    apply empty_db_well_formed.
  - reflexivity.
Defined.

(** X15: every event logged is reported.  After any calls on a fresh
    database, [get_recent_events] with a negative limit (down to [-2^63]),
    or a limit below [2^63] that is not below the number of [insert_event]
    calls, returns one mapping per [insert_event] call, with the types and
    messages of those calls (in timestamp order, not call order). *)
Theorem logged_events_are_reported
    (now : nat -> datetime.t) (h : list call) (limit : Z) :
  (int64_min <= limit < 0)%Z
  \/ (Z.of_nat (List.length (logged h)) <= limit <= int64_max)%Z ->
  exists rows,
    get_recent_events limit (replay now h) = (Return rows, replay now h)
    /\ Permutation (map dict_payload rows) (logged h).
Proof.
  intros Hlimit.
  destruct (run_events now h empty_db) as (added & Hev & Hlog).
  change (run now h empty_db) with (replay now h) in Hev.
  change (events empty_db ++ added) with added in Hev.
  set (ordered := order_by_desc datetime.leb Events.timestamp
                    (events (replay now h))).
  assert (Hperm : Permutation (events (replay now h)) ordered)
    by apply sort_perm.
  exists (map event_dict ordered). split.
  - rewrite get_recent_events_run
      by (unfold int64_min, int64_max in *; lia).
    fold ordered. unfold limited.
    destruct (Z.ltb_spec limit 0) as [Hneg | Hpos]; [reflexivity|].
    destruct Hlimit as [Hneg | Hbig]; [lia|].
    rewrite firstn_all2; [reflexivity|].
    assert (Hlen : List.length ordered = List.length (logged h)).
    { rewrite <- (Permutation_length Hperm), Hev, <- Hlog, length_map.
      reflexivity. }
    rewrite Hlen. lia.
  - rewrite map_map.
    change (fun x => dict_payload (event_dict x)) with event_payload.
    rewrite <- Hlog, <- Hev. apply Permutation_map, Permutation_sym, Hperm.
Qed.

Lemma logged_events_are_reported_witness :
  exists rows,
    get_recent_events 1 (replay steady_clock sample_history) =
    (Return rows, replay steady_clock sample_history)
    /\ Permutation (map dict_payload rows) [("grab", "a")].
Proof.
  apply (logged_events_are_reported steady_clock sample_history 1).
  right. unfold int64_max. cbn. lia.
Defined.
